(** * mp3-check: silence analysis, boundary classifier and repair of mp3 tracks

    A shallow embedding of the analysis-and-repair core of [mp3-check]
    (the Go program whose [main] drives [analyse], [countProblems],
    [logProblems] and [fixProblems]).

    - Go's [float64] is Rocq's primitive binary64 [float]; comparisons are the
      IEEE ones ([<?], [<=?], [=?]), so NaN and signed zeros behave as in Go.
    - Go's [uint] counters are [Z] with the wrap-around at [2^64] written out.
    - The collection ([artistMap] and the maps below it) is a tree of [gmap]s.
    - The two external [ffmpeg] invocations are explicit: the detection run is
      a function from the command's arguments to its log lines, the trim run
      a function on the file system together with its exit status.
    - Reading the folder ([getFolderData]), the report ([logProblems],
      [printProblemNumber]), the statistics ([getStats]) and the sorting
      ([escape], [sortData]) follow, with the walk of the folder as the list of
      what [filepath.Walk] meets and the prints as the lines printed. *)

From Stdlib Require Import Ascii DecimalString DecimalPos DecimalZ.
From Stdlib Require Import Floats ZArith Lia.
From stdpp Require Import gmap strings list fin_maps.

#[local] Set Warnings "-inexact-float".
#[local] Open Scope Z_scope.

(** ** float64 *)

Module Float64.

Notation "x >? y" := (PrimFloat.ltb y x) (at level 70, no associativity) : float_scope.
Notation "x >=? y" := (PrimFloat.leb y x) (at level 70, no associativity) : float_scope.

#[local] Open Scope float_scope.

(** Go's [x != y]: true as soon as one side is NaN. *)
Definition ne (x y : float) : bool := negb (x =? y).

(** [math.IsInf(f, sign)] for [sign > 0] and [sign < 0]. *)
Definition IsInfPos (f : float) : bool := f =? infinity.
Definition IsInfNeg (f : float) : bool := f =? neg_infinity.

(** [math.IsNaN]: [f != f]. *)
Definition IsNaN (f : float) : bool := ne f f.

(** [math.Signbit]. *)
Definition Signbit (f : float) : bool := get_sign f.

(** [math.Max], with the special cases of the Go library:
    [Max(x, +Inf) = Max(+Inf, x) = +Inf], [Max(x, NaN) = Max(NaN, x) = NaN],
    [Max(+0, ±0) = Max(±0, +0) = +0], [Max(-0, -0) = -0]. *)
Definition Max (x y : float) : float :=
  if IsInfPos x || IsInfPos y then infinity
  else if IsNaN x || IsNaN y then nan
  else if (x =? 0) && (x =? y) then (if Signbit x then y else x)
  else if x >? y then x
  else y.

(** [math.Min], with the special cases of the Go library:
    [Min(x, -Inf) = Min(-Inf, x) = -Inf], [Min(x, NaN) = Min(NaN, x) = NaN],
    [Min(-0, ±0) = Min(±0, -0) = -0]. *)
Definition Min (x y : float) : float :=
  if IsInfNeg x || IsInfNeg y then neg_infinity
  else if IsNaN x || IsNaN y then nan
  else if (x =? 0) && (x =? y) then (if Signbit x then x else y)
  else if x <? y then x
  else y.

(** The IEEE order on the specification side ([spec_float]): a float that
    is not NaN is ranked by sign class, then exponent, then mantissa, and
    [SFcompare] is the lexicographic comparison of the ranks. *)
Definition rank (f : spec_float) : Z * (Z * Z) :=
  match f with
  | S754_nan => (0, (0, 0))
  | S754_zero _ => (0, (0, 0))
  | S754_infinity s => (if s then -2 else 2, (0, 0))
  | S754_finite s m e =>
      if s then (-1, (- e, Z.neg m)) else (1, (e, Z.pos m))
  end%Z.

Definition lexlt (a b : Z * (Z * Z)) : Prop :=
  (a.1 < b.1 ∨ (a.1 = b.1 ∧ (a.2.1 < b.2.1 ∨ (a.2.1 = b.2.1 ∧ a.2.2 < b.2.2))))%Z.

Definition lexle (a b : Z * (Z * Z)) : Prop :=
  (a.1 < b.1 ∨ (a.1 = b.1 ∧ (a.2.1 < b.2.1 ∨ (a.2.1 = b.2.1 ∧ a.2.2 <= b.2.2))))%Z.

Definition isnan (f : spec_float) : bool :=
  match f with S754_nan => true | _ => false end.

Definition isinf (f : spec_float) : bool :=
  match f with S754_infinity _ => true | _ => false end.

(** [x] is a number: not NaN. *)
Definition num (x : float) : Prop := isnan (Prim2SF x) = false.

(** [x] is neither NaN nor infinite. *)
Definition fin (x : float) : Prop :=
  isnan (Prim2SF x) = false ∧ isinf (Prim2SF x) = false.

Definition rk (x : float) : Z * (Z * Z) := rank (Prim2SF x).

End Float64.

Import Float64.

(** ** Constants *)

Definition tolerance : float := 0.01.
Definition maxOverlapping : float := 10.
Definition maxSilence : float := 2.
Definition minSilence : float := 0.6.
Definition silenceTolerance : float := 0.4.
Definition workers : Z := 10.

(** ** Data model *)

Record silence := mkSilence {
  start : float;
  end_ : float
}.

Record track := mkTrack {
  name : string;
  path : string;
  trackNumber : Z;
  diskNumber : Z;
  silences : list silence;
  longSilences : list silence;
  duration : float
}.

(** [album.tracks] is [map[int]map[int]*track]: disk number, then track number.
    The [tracksByName] indexes alias the same tracks and are read by none of
    the functions below; the parent pointers are likewise left out. *)
Record album := mkAlbum {
  album_name : string;
  tracks : gmap Z (gmap Z track)
}.

Record artist := mkArtist {
  artist_name : string;
  albums : gmap string album
}.

Abbreviation artistMap := (gmap string artist).

(** [s[i]] on a slice. Go panics when [i] is out of range; every use below is
    guarded by a test on [len], see [idx_first_in_range] and
    [idx_last_in_range]. *)
Definition idx (s : list silence) (i : nat) : silence :=
  nth i s (mkSilence 0 0).

(** ** Boundary classifier *)

Section Classifier.
#[local] Open Scope float_scope.

Definition overlapsAtTheEnd (t : track) : bool :=
  if (length (silences t) =? 0)%nat then false
  else
    let lastSilence := idx (silences t) (length (silences t) - 1) in
    let difference := duration t - end_ lastSilence in
    if (difference <? maxOverlapping) && (difference >? tolerance) then true
    else false.

Definition overlapsAtTheBeginning (t : track) : bool :=
  if (length (silences t) =? 0)%nat then false
  else
    let firstSilence := idx (silences t) 0 in
    if (start firstSilence <? maxOverlapping) && (start firstSilence >? tolerance)
    then true
    else false.

Definition truncatedAtTheBeginning (t : track) : bool :=
  if (length (silences t) =? 0)%nat then true
  else
    let firstSilence := idx (silences t) 0 in
    if start firstSilence >=? maxOverlapping then true
    else false.

Definition truncatedAtTheEnd (t : track) : bool :=
  if (length (silences t) =? 0)%nat then true
  else
    let lastSilence := idx (silences t) (length (silences t) - 1) in
    let difference := duration t - end_ lastSilence in
    if difference >=? maxOverlapping then true
    else false.

Definition hugeSilenceAtTheBeginning (t : track) : bool :=
  if (length (longSilences t) =? 0)%nat then false
  else
    let firstSilence := idx (longSilences t) 0 in
    if start firstSilence >=? maxOverlapping then false
    else true.

Definition hugeSilenceAtTheEnd (t : track) : bool :=
  if (length (longSilences t) =? 0)%nat then false
  else
    let lastSilence := idx (longSilences t) (length (longSilences t) - 1) in
    let difference := duration t - end_ lastSilence in
    if difference >=? maxOverlapping then false
    else true.

End Classifier.

(** ** Silence detection *)

(** One line of [ffmpeg]'s combined output, as the three regular expressions
    of the program read it. [getSilenceInfo] tries [silenceStart] first, then
    [silenceEnd], then [duration]; the constructor records the first one that
    matches, with the captured groups already through [strconv.ParseFloat]
    (whose error is dropped by the program, the value being 0 then). *)
Inductive line :=
| silenceStartLine (t : float)
| silenceEndLine (t : float)
| durationLine (hours minutes seconds offset : float)
| otherLine.

(** [exec.Command("ffmpeg", "-i", path, "-af", silenceDetectArg, ...)
    .CombinedOutput()], split into lines. The error of the command is dropped
    by the program: a run that fails is a run with whatever output it left. *)
Definition detector := string → string → list line.

(** The filter argument. Both durations are constant expressions of the
    program, [maxSilence+silenceTolerance] and [minSilence-silenceTolerance],
    which Go evaluates exactly (2.4 and 0.2) before [%f] prints them. *)
Definition silenceDetectArg (longSilence : bool) : string :=
  if longSilence then "silencedetect=d=2.400000"
  else "silencedetect=noise=-25dB:d=0.200000".

(** The loop state of [getSilenceInfo]. *)
Record scan := mkScan {
  currentSilence : silence;
  d : float;
  result : list silence
}.

Section Detection.
#[local] Open Scope float_scope.

Definition scanInit : scan := mkScan (mkSilence 0 0) 0 [].

(** The test of the [if] that guards [append]. *)
Definition keeps (cur : silence) (d : float) : bool :=
  let currentDuration := end_ cur - start cur in
  (currentDuration >? minSilence) || (start cur <? tolerance)
  || (d - end_ cur <? tolerance).

(** One iteration of the loop over the lines. The products of the duration
    line are exact for the two-digit hours and minutes the expression
    admits, so a fused multiply-add changes nothing. *)
Definition scanLine (st : scan) (l : line) : scan :=
  match l with
  | silenceStartLine t =>
      mkScan (mkSilence t (end_ (currentSilence st))) (d st) (result st)
  | silenceEndLine t =>
      let cur := mkSilence (start (currentSilence st)) t in
      if keeps cur (d st)
      then mkScan cur (d st) (result st ++ [cur])
      else mkScan cur (d st) (result st)
  | durationLine hours minutes seconds offset =>
      mkScan (currentSilence st)
             (hours * 3600 + minutes * 60 + seconds - offset) (result st)
  | otherLine => st
  end.

Definition getSilenceInfo (ffmpeg : detector) (path : string)
    (longSilence : bool) : list silence * float :=
  let lines := ffmpeg path (silenceDetectArg longSilence) in
  let st := fold_left scanLine lines scanInit in
  (result st, d st).

End Detection.

(** ** Analysis *)

(** The body of a worker of [analyse]: two detection runs, short then long;
    the duration of the short run is the one kept. *)
Definition analyseTrack (ffmpeg : detector) (t : track) : track :=
  let '(s, dur) := getSilenceInfo ffmpeg (path t) false in
  let '(ls, _) := getSilenceInfo ffmpeg (path t) true in
  mkTrack (name t) (path t) (trackNumber t) (diskNumber t) s ls dur.

Definition analyseAlbum (ffmpeg : detector) (a : album) : album :=
  mkAlbum (album_name a)
    ((λ disk : gmap Z track, analyseTrack ffmpeg <$> disk) <$> tracks a).

Definition analyseArtist (ffmpeg : detector) (a : artist) : artist :=
  mkArtist (artist_name a) (analyseAlbum ffmpeg <$> albums a).

(** Every track is handed to exactly one worker and written by it alone, so
    the result does not depend on the order in which the workers run. *)
Definition analyse (ffmpeg : detector) (data : artistMap) : artistMap :=
  analyseArtist ffmpeg <$> data.

(** ** Counting *)

(** [n++] on a [uint]. *)
Definition uint_incr (n : Z) : Z := (n + 1) mod 2 ^ 64.

(** The body of the innermost loop of [countProblems]. *)
Definition countTrack (t : track) (acc : Z * Z) : Z * Z :=
  let '(problems, fixable) := acc in
  if truncatedAtTheBeginning t || truncatedAtTheEnd t then
    (uint_incr problems, fixable)
  else if overlapsAtTheEnd t || overlapsAtTheBeginning t
          || hugeSilenceAtTheBeginning t || hugeSilenceAtTheEnd t then
    (uint_incr problems, uint_incr fixable)
  else (problems, fixable).

Definition countProblems (data : artistMap) : Z * Z :=
  map_fold (λ _ artist acc,
    map_fold (λ _ album acc,
      map_fold (λ _ disk acc,
        map_fold (λ _ track acc, countTrack track acc) acc disk)
      acc (tracks album))
    acc (albums artist))
  (0, 0) data.

(** The tracks of the collection, in the order in which the four nested
    [range] loops of [countProblems] and [fixProblems] meet them. Go leaves the
    iteration order of a map unspecified; [map_fold] fixes one. *)
Definition diskTracks (disk : gmap Z track) : list track :=
  (map_to_list disk).*2.

Definition albumTracks (a : album) : list track :=
  mjoin (diskTracks <$> (map_to_list (tracks a)).*2).

Definition artistTracks (a : artist) : list track :=
  mjoin (albumTracks <$> (map_to_list (albums a)).*2).

Definition allTracks (data : artistMap) : list track :=
  mjoin (artistTracks <$> (map_to_list data).*2).

(** ** Repair *)

(** The files the program touches, by path. *)
Abbreviation filesystem := (gmap string (list Byte.byte)).

(** The calls [fixProblems] makes to the operating system, as a log. The trim
    command gets [start] and [end-start] printed with [%f]; the log keeps the
    numbers themselves. *)
Inductive call :=
| callRemove (name : string)
| callRename (oldpath newpath : string)
| callTrim (ss t : float) (input output : string).

(** [pb] counts the [pb.Add(1)] of the progress bar, which [fixProblems]
    creates with [fixable] as its maximum. *)
Record world := mkWorld {
  files : filesystem;
  calls : list call;
  pb : Z
}.

(** [exec.Command("ffmpeg", "-ss", ss, "-t", t, "-i", input, "-codec", "copy",
    output).Run()]: what it does to the files, and whether [err == nil]. *)
Definition trimmer :=
  float → float → string → string → filesystem → filesystem * bool.

Module IO.

Definition IO (A : Type) : Type := world → A * world.

#[global] Instance io_ret : MRet IO := λ A a w, (a, w).

#[global] Instance io_bind : MBind IO := λ A B k m w,
  let '(a, w') := m w in k a w'.

Definition exec {A} (m : IO A) (w : world) : world := (m w).2.

(** [os.Remove]; the error (no such file) is dropped by the program. *)
Definition os_Remove (name : string) : IO unit := λ w,
  (tt, mkWorld (delete name (files w)) (calls w ++ [callRemove name]) (pb w)).

(** [os.Rename]; replaces [newpath], fails (error dropped) without
    [oldpath]. *)
Definition os_Rename (oldpath newpath : string) : IO unit := λ w,
  let fs :=
    match files w !! oldpath with
    | Some c => <[newpath := c]> (delete oldpath (files w))
    | None => files w
    end in
  (tt, mkWorld fs (calls w ++ [callRename oldpath newpath]) (pb w)).

(** [cmd.Run()], returning [err == nil]. *)
Definition cmd_Run (ffmpeg : trimmer) (ss t : float)
    (input output : string) : IO bool := λ w,
  let '(fs, ok) := ffmpeg ss t input output (files w) in
  (ok, mkWorld fs (calls w ++ [callTrim ss t input output]) (pb w)).

Definition pb_Add (n : Z) : IO unit := λ w,
  (tt, mkWorld (files w) (calls w) (pb w + n)).

End IO.

Import IO.

Section Repair.
#[local] Open Scope float_scope.

(** The window [fixProblems] computes for a track, [(start, end)]. *)
Definition trimWindow (t : track) : float * float :=
  let start' := 0 in
  let end' := duration t in
  let start' :=
    if overlapsAtTheBeginning t then
      let firstSilence := idx (silences t) 0 in
      Max start' (start firstSilence + silenceTolerance)
    else start' in
  let start' :=
    if hugeSilenceAtTheBeginning t then
      let firstLongSilence := idx (longSilences t) 0 in
      Max start' (end_ firstLongSilence - maxSilence)
    else start' in
  let end' :=
    if overlapsAtTheEnd t then
      let lastSilence := idx (silences t) (length (silences t) - 1) in
      Min end' (end_ lastSilence - silenceTolerance)
    else end' in
  let end' :=
    if hugeSilenceAtTheEnd t then
      let lastLongSilence := idx (longSilences t) (length (longSilences t) - 1) in
      Min end' (start lastLongSilence + maxSilence)
    else end' in
  (start', end').

Definition tmpPath (t : track) : string := path t +:+ ".tmp.mp3".

(** The body of the worker loop of [fixProblems], for one track taken from
    the channel. *)
Definition fixTrack (ffmpeg : trimmer) (t : track) : IO unit :=
  let '(start', end') := trimWindow t in
  (if ne start' 0 || ne end' (duration t) then
     os_Remove (tmpPath t);;
     ok ← cmd_Run ffmpeg start' (end' - start') (path t) (tmpPath t);
     if ok : bool then
       os_Remove (path t);;
       os_Rename (tmpPath t) (path t)
     else mret tt
   else mret tt);;
  pb_Add 1.

(** [fixProblems]: every track of the collection goes through the channel to
    one worker. The tracks are taken here one after the other, in the order
    in which they are sent; [fixable] only sizes the progress bar and is
    printed. *)
Definition fixProblems (ffmpeg : trimmer) (fixable : Z) (data : artistMap)
    : IO unit :=
  foldr (λ t k, fixTrack ffmpeg t;; k) (mret tt) (allTracks data).

End Repair.

(** ** The retention rule as the specification words it *)

(** The minimum duration the specification gives each profile:
    [minSilence - tolerance] for the short one, [maxSilence + tolerance] for
    the long one. *)
Definition specMinDuration (longSilence : bool) : float :=
  if longSilence then 2.01 else 0.59.

(** An interval is retained when its length exceeds the minimum duration of
    the profile, or it starts within [tolerance] of time 0, or it ends within
    [tolerance] of the end of the track. *)
Definition specRetained (longSilence : bool) (s : silence) (duration : float)
    : bool :=
  ((end_ s - start s >? specMinDuration longSilence)
   || (start s <? tolerance) || (duration - end_ s <? tolerance))%float.

(** The intervals [getSilenceInfo] completes, in order, each with the duration
    read so far: what the loop looks at when it meets a [silence_end] line. *)
Fixpoint parsedIntervals (cur : silence) (d : float) (lines : list line)
    : list (silence * float) :=
  match lines with
  | [] => []
  | silenceStartLine t :: lines =>
      parsedIntervals (mkSilence t (end_ cur)) d lines
  | silenceEndLine t :: lines =>
      (mkSilence (start cur) t, d)
        :: parsedIntervals (mkSilence (start cur) t) d lines
  | durationLine hours minutes seconds offset :: lines =>
      parsedIntervals cur (hours * 3600 + minutes * 60 + seconds - offset)%float
        lines
  | otherLine :: lines => parsedIntervals cur d lines
  end.

Definition isDurationLine (l : line) : bool :=
  match l with durationLine _ _ _ _ => true | _ => false end.

(** The numbers of a line, and the bounds of an interval, are not NaN. *)
Definition numLine (l : line) : Prop :=
  match l with
  | silenceStartLine t | silenceEndLine t => IsNaN t = false
  | _ => True
  end.

Definition numSilence (s : silence) : Prop :=
  IsNaN (start s) = false ∧ IsNaN (end_ s) = false.

(** ** Sample collections and tools *)

(** A detector with canned output, one log per profile. *)
Definition cannedDetector (short long : list line) : detector :=
  λ _ arg, if String.eqb arg (silenceDetectArg true) then long else short.

(** A track as [getFolderData] leaves it, before analysis. *)
Definition newTrack (name path : string) : track :=
  mkTrack name path 1 1 [] [] 0.

(** A collection of one artist, one album, one disk and one track. *)
Definition singleTrack (t : track) : artistMap :=
  {[ "artist" := mkArtist "artist"
       {[ "album" := mkAlbum "album" {[ 1 := {[ 1 := t ]} ]} ]} ]}.

(** A trim that succeeds: the output holds the input without its first byte. *)
Definition trimDone : trimmer := λ _ _ input output fs,
  match fs !! input with
  | Some c => (<[output := drop 1 c]> fs, true)
  | None => (fs, false)
  end.

(** A trim that fails after it has written the first byte of its output. *)
Definition trimBroken : trimmer := λ _ _ input output fs,
  match fs !! input with
  | Some c => (<[output := take 1 c]> fs, false)
  | None => (fs, false)
  end.

(** One file of three bytes. *)
Definition oneFile (path : string) : world :=
  mkWorld {[ path := [Byte.x49; Byte.x44; Byte.x33] ]} [] 0.

(** The three tracks of the sample album: one without any silence, one that
    starts 0.3 s into its first silence, one with silence at both ends. *)
Definition sampleData : artistMap :=
  {[ "artist" := mkArtist "artist"
       {[ "album" := mkAlbum "album"
            {[ 1 := {[ 1 := mkTrack "x" "x.mp3" 1 1 [] [] 180;
                       2 := mkTrack "y" "y.mp3" 2 1
                              [mkSilence 0.3 0.9; mkSilence 199.5 200] [] 200;
                       3 := mkTrack "z" "z.mp3" 3 1
                              [mkSilence 0 0.5; mkSilence 199.5 200] [] 200 ]}
            ]} ]} ]}.

(** ** The two classes [countProblems] counts *)

Definition isTruncated (t : track) : bool :=
  truncatedAtTheBeginning t || truncatedAtTheEnd t.

Definition isFixable (t : track) : bool :=
  negb (isTruncated t)
  && (overlapsAtTheEnd t || overlapsAtTheBeginning t
      || hugeSilenceAtTheBeginning t || hugeSilenceAtTheEnd t).

(** ** Assumptions on the tools, and more samples *)

(** A trim command that changes no file but its output. *)
Definition writesOnlyOutput (ffmpeg : trimmer) : Prop :=
  ∀ ss t input output fs p,
    p ≠ output → (ffmpeg ss t input output fs).1 !! p = fs !! p.

(** The files of the sample album, and the picture of its cover. *)
Definition sampleFiles : world :=
  mkWorld {[ "x.mp3" := [Byte.x49; Byte.x44; Byte.x33];
             "y.mp3" := [Byte.x49; Byte.x44; Byte.x33];
             "z.mp3" := [Byte.x49; Byte.x44; Byte.x33];
             "cover.jpg" := [Byte.xff; Byte.xd8] ]} [] 0.

(** The second track of the sample album. *)
Definition sampleOverlap : track :=
  mkTrack "y" "y.mp3" 2 1 [mkSilence 0.3 0.9; mkSilence 199.5 200] [] 200.

Definition isSilenceEndLine (l : line) : bool :=
  match l with silenceEndLine _ => true | _ => false end.

(** ** Statistics *)

(** [getStats]: the numbers of artists, albums and tracks, each a [uint]. *)
Definition getStats (data : artistMap) : Z * Z * Z :=
  map_fold (λ _ artist '(artists, albums_, tracks_),
    map_fold (λ _ album '(artists, albums_, tracks_),
      map_fold (λ _ disk acc,
        map_fold (λ _ _ '(artists, albums_, tracks_),
                    (artists, albums_, uint_incr tracks_))
          acc disk)
      (artists, uint_incr albums_, tracks_) (tracks album))
    (uint_incr artists, albums_, tracks_) (albums artist))
  (0, 0, 0) data.

(** The albums of the collection, in the order of the loops. *)
Definition allAlbums (data : artistMap) : list album :=
  mjoin ((λ a : artist, (map_to_list (albums a)).*2) <$> (map_to_list data).*2).

(** [plural]. *)
Definition plural (n : Z) (singular plural : string) : string :=
  if (n =? 1)%Z then singular else plural.

(** ** File names *)

(** The characters of [wrongChars], the class of the regular expression:
    slash, backslash, question mark, percent, star, colon, bar, double quote
    and the two angle brackets. *)
Definition wrongCharList : list Ascii.ascii :=
  ["/"; "\"; "?"; "%"; "*"; ":"; "|"; "034"; "<"; ">"]%char.

Definition isWrongChar (c : Ascii.ascii) : bool :=
  existsb (Ascii.eqb c) wrongCharList.

(** [wrongChars.ReplaceAllLiteralString(path, "-")]: every maximal run of
    wrong characters becomes one dash. [inRun] says that the character before
    was a wrong one. *)
Fixpoint replaceRuns (inRun : bool) (s : string) : string :=
  match s with
  | EmptyString => EmptyString
  | String c s =>
      if isWrongChar c then
        if inRun then replaceRuns true s
        else String "-" (replaceRuns true s)
      else String c (replaceRuns false s)
  end.

Definition escape (path : string) : string := replaceRuns false path.

(** Every character of [s] passes [p]. *)
Fixpoint allChars (p : Ascii.ascii → bool) (s : string) : bool :=
  match s with
  | EmptyString => true
  | String c s => p c && allChars p s
  end.

Definition cleanName (s : string) : bool :=
  allChars (λ c, negb (isWrongChar c)) s.

(** [%d]. *)
Definition decimal (n : Z) : string := NilZero.string_of_int (Z.to_int n).

(** [%02d]: two characters at least, zeros on the left. Only the numbers
    from 0 to 9 are shorter than that. *)
Definition fmt02d (n : Z) : string :=
  if (0 <=? n) && (n <? 10) then "0" +:+ decimal n else decimal n.

(** The name [sortData] gives the file of a track. *)
Definition sortFileName (a : album) (diskNumber trackNumber : Z) (t : track)
    : string :=
  let fileName := EmptyString in
  let fileName :=
    if (1 <? Z.of_nat (size (tracks a))) then
      fileName +:+ (fmt02d diskNumber +:+ " - ")
    else fileName in
  fileName +:+ (fmt02d trackNumber +:+ " " +:+ escape (name t) +:+ ".mp3").

(** The characters [%d] prints: the ten digits and the minus sign. *)
Definition isNumChar (c : Ascii.ascii) : bool :=
  existsb (Ascii.eqb c)
    ["0"; "1"; "2"; "3"; "4"; "5"; "6"; "7"; "8"; "9"; "-"]%char.

Definition notSpace (c : Ascii.ascii) : bool := negb (Ascii.eqb c " ").

(** ** Sorting *)

(** The calls [sortData] makes, in order. *)
Inductive sortCall :=
| callMkdir (name : string)
| callMove (oldpath newpath : string).

(** [sortData], as the log of its calls; [Join] is [filepath.Join]. The errors
    of [os.Mkdir] are dropped by the program, those of [os.Rename] printed. *)
Definition sortData (Join : list string → string) (folder : string)
    (data : artistMap) : list sortCall :=
  map_fold (λ _ artist log,
    callMkdir (Join [folder; escape (artist_name artist)])
    :: map_fold (λ _ album log,
         callMkdir (Join [folder; escape (artist_name artist);
                          escape (album_name album)])
         :: map_fold (λ diskNumber disk log,
              map_fold (λ trackNumber track log,
                callMove (path track)
                  (Join [folder; escape (artist_name artist);
                         escape (album_name album);
                         sortFileName album diskNumber trackNumber track])
                :: log)
              log disk)
            log (tracks album))
       log (albums artist))
  [] data.

(** The file a call moves, if it moves one. *)
Definition movedFile (c : sortCall) : option string :=
  match c with
  | callMove oldpath _ => Some oldpath
  | callMkdir _ => None
  end.

(** ** Reporting *)

(** The three colouring functions of the [color] package [logProblems] uses.
    What they add around the text depends on the terminal. *)
Record palette := mkPalette {
  RedString : string → string;
  YellowString : string → string;
  HiMagentaString : string → string
}.

(** The seven characters of a track in the report, coloured. *)
Definition problemFlags (c : palette) (t : track) : string :=
  let problems := EmptyString in
  let problems :=
    problems +:+ (if truncatedAtTheBeginning t then RedString c "T" else "-") in
  let problems :=
    problems +:+ (if overlapsAtTheBeginning t then YellowString c "O" else "-") in
  let problems :=
    problems
    +:+ (if hugeSilenceAtTheBeginning t then HiMagentaString c "S" else "-") in
  let problems := problems +:+ " " in
  let problems :=
    problems +:+ (if hugeSilenceAtTheEnd t then HiMagentaString c "S" else "-") in
  let problems :=
    problems +:+ (if overlapsAtTheEnd t then YellowString c "O" else "-") in
  let problems :=
    problems +:+ (if truncatedAtTheEnd t then RedString c "T" else "-") in
  problems.

(** What [logProblems] prints: the name of an artist, the name of an album,
    or the flags and the name of a track. *)
Inductive logLine :=
| artistLine (name : string)
| albumLine (name : string)
| trackLine (problems name : string).

Definition newline : string := String "010" EmptyString.

(** The text of a line, as [fmt.Print] and [fmt.Fprint] write it. *)
Definition render (l : logLine) : string :=
  match l with
  | artistLine name => newline +:+ "  " +:+ name +:+ newline
  | albumLine name => newline +:+ name +:+ newline +:+ newline
  | trackLine problems name => problems +:+ " " +:+ name +:+ newline
  end.

(** The test of [logProblems] on the flags of a track. *)
Definition isLogged (c : palette) (t : track) : bool :=
  negb (String.eqb (problemFlags c t) "--- ---").

(** The body of the innermost loop of [logProblems]; the state is the output
    so far and the two flags [artistNameLogged] and [albumNameLogged]. *)
Definition logTrack (c : palette) (artistName albumName : string) (t : track)
    (st : list logLine * bool * bool) : list logLine * bool * bool :=
  let '(out, artistNameLogged, albumNameLogged) := st in
  if isLogged c t then
    let '(out, artistNameLogged) :=
      if negb artistNameLogged then (out ++ [artistLine artistName], true)
      else (out, artistNameLogged) in
    let '(out, albumNameLogged) :=
      if negb albumNameLogged then (out ++ [albumLine albumName], true)
      else (out, albumNameLogged) in
    (out ++ [trackLine (problemFlags c t) (name t)],
     artistNameLogged, albumNameLogged)
  else st.

Definition logProblems (c : palette) (data : artistMap) : list logLine :=
  map_fold (λ _ artist out,
    (map_fold (λ _ album '(out, artistNameLogged),
       (map_fold (λ _ disk st,
          map_fold (λ _ track st,
            logTrack c (artist_name artist) (album_name album) track st)
          st disk)
        (out, artistNameLogged, false) (tracks album)).1)
     (out, false) (albums artist)).1)
  [] data.

(** The report without the flags: for every artist, in the order of the
    loops, the name of the artist if one of its tracks is logged, then for
    every album its name if one of its tracks is logged, then the lines of
    these tracks. The loops of the model run from the last element of
    [map_to_list] to the first. *)
Definition trackLines (c : palette) (ts : list track) : list logLine :=
  (λ t, trackLine (problemFlags c t) (name t)) <$> List.filter (isLogged c) ts.

Definition albumReport (c : palette) (a : album) : list logLine :=
  match trackLines c (rev (albumTracks a)) with
  | [] => []
  | ls => albumLine (album_name a) :: ls
  end.

Definition artistReport (c : palette) (a : artist) : list logLine :=
  match mjoin (albumReport c <$> rev (map_to_list (albums a)).*2) with
  | [] => []
  | ls => artistLine (artist_name a) :: ls
  end.

Definition logReport (c : palette) (data : artistMap) : list logLine :=
  mjoin (artistReport c <$> rev (map_to_list data).*2).

(** A palette whose coloured letters can be seen: none is empty, none is a
    dash. *)
Definition visible (c : palette) : Prop :=
  ∀ s, s ∈ [RedString c "T"; YellowString c "O"; HiMagentaString c "S"] →
       s ≠ EmptyString ∧ s ≠ "-".

(** The palette of a terminal without colours, and the one that wraps the
    text in escape sequences. *)
Definition plainPalette : palette := mkPalette id id id.

Definition ansi (code : string) (s : string) : string :=
  String "027" ("[" +:+ code +:+ "m" +:+ s +:+ String "027" "[0m").

Definition ansiPalette : palette := mkPalette (ansi "31") (ansi "33") (ansi "95").

(** A track is a problem for [countProblems]. *)
Definition isProblem (t : track) : bool := isTruncated t || isFixable t.

(** The flags, from the values of the six predicates. *)
Definition flagsOf (c : palette) (tb ob hb he oe te : bool) : string :=
  (if tb then RedString c "T" else "-")
  +:+ (if ob then YellowString c "O" else "-")
  +:+ (if hb then HiMagentaString c "S" else "-")
  +:+ " "
  +:+ (if he then HiMagentaString c "S" else "-")
  +:+ (if oe then YellowString c "O" else "-")
  +:+ (if te then RedString c "T" else "-").

Definition isTrackLine (l : logLine) : bool :=
  match l with trackLine _ _ => true | _ => false end.

(** The number of elements of a list that pass a test. *)
Definition countIf {A} (f : A → bool) (l : list A) : nat :=
  length (List.filter f l).

(** ** Reading the folder *)

(** The tags [getFolderData] reads from a file. *)
Record metadata := mkMetadata {
  AlbumArtist : string;
  Artist : string;
  Album : string;
  Title : string;
  Disc : Z;
  Track : Z
}.

(** What the function given to [filepath.Walk] meets at a path: a name that
    does not end in [.mp3] (it returns [nil]); an mp3 file it cannot walk to,
    open or read the tags of (it returns the error); an mp3 file and its
    tags. *)
Inductive walkEntry :=
| otherFile (path : string)
| unreadable (path : string)
| tagged (path : string) (m : metadata).

(** [strings.Trim(s, " ")]. *)
Fixpoint trimLeft (s : string) : string :=
  match s with
  | String c s' => if Ascii.eqb c " " then trimLeft s' else s
  | EmptyString => EmptyString
  end.

Fixpoint trimRight (s : string) : string :=
  match s with
  | String c s' =>
      match trimRight s' with
      | EmptyString => if Ascii.eqb c " " then EmptyString
                       else String c EmptyString
      | r => String c r
      end
  | EmptyString => EmptyString
  end.

Definition Trim (s : string) : string := trimRight (trimLeft s).

(** [strings.Split(s, ",")[0]]. *)
Fixpoint firstField (s : string) : string :=
  match s with
  | String c s' => if Ascii.eqb c "," then EmptyString
                   else String c (firstField s')
  | EmptyString => EmptyString
  end.

Definition artistNameOf (m : metadata) : string :=
  let artistName := Trim (AlbumArtist m) in
  if String.eqb artistName EmptyString then Trim (firstField (Artist m))
  else artistName.

(** The track [getFolderData] files for an mp3 file. *)
Definition trackOf (path : string) (m : metadata) : track :=
  mkTrack (Trim (Title m)) path (Track m) (Disc m) [] [] 0.

(** The body of the function given to [filepath.Walk], past the three error
    returns: the artist, the album and the disk are made when they are
    missing, and the track is filed under its numbers. *)
Definition addFile (data : artistMap) (path : string) (m : metadata)
    : artistMap :=
  let artistName := artistNameOf m in
  let albumName := Trim (Album m) in
  let data :=
    match data !! artistName with
    | None => <[artistName := mkArtist artistName ∅]> data
    | Some _ => data
    end in
  let ar := default (mkArtist artistName ∅) (data !! artistName) in
  let ar :=
    match albums ar !! albumName with
    | None => mkArtist (artist_name ar)
                (<[albumName := mkAlbum albumName ∅]> (albums ar))
    | Some _ => ar
    end in
  let al := default (mkAlbum albumName ∅) (albums ar !! albumName) in
  let al :=
    match tracks al !! Disc m with
    | None => mkAlbum (album_name al) (<[Disc m := ∅]> (tracks al))
    | Some _ => al
    end in
  let disk := default ∅ (tracks al !! Disc m) in
  let disk := <[Track m := trackOf path m]> disk in
  <[artistName :=
      mkArtist (artist_name ar)
        (<[albumName := mkAlbum (album_name al) (<[Disc m := disk]> (tracks al))]>
           (albums ar))]> data.

(** [filepath.Walk] stops at the first error the function returns; the error
    [Walk] returns is dropped. *)
Fixpoint walk (entries : list walkEntry) (data : artistMap) : artistMap :=
  match entries with
  | [] => data
  | otherFile _ :: entries => walk entries data
  | unreadable _ :: _ => data
  | tagged path m :: entries => walk entries (addFile data path m)
  end.

Definition getFolderData (entries : list walkEntry) : artistMap :=
  walk entries ∅.

(** [data[artist].albums[album].tracks[disk][number]]. *)
Definition trackAt (data : artistMap) (artistName albumName : string)
    (diskNumber trackNumber : Z) : option track :=
  data !! artistName ≫= λ ar, albums ar !! albumName
    ≫= λ al, tracks al !! diskNumber ≫= λ disk, disk !! trackNumber.

Definition isUnreadable (e : walkEntry) : bool :=
  match e with unreadable _ => true | _ => false end.

(** The entry is not an mp3 file with the tags of [m]: the same artist, album,
    disk number and track number. *)
Definition otherTags (m : metadata) (e : walkEntry) : Prop :=
  match e with
  | tagged _ m' =>
      (artistNameOf m', Trim (Album m'), Disc m', Track m')
      ≠ (artistNameOf m, Trim (Album m), Disc m, Track m)
  | _ => True
  end.

(** A walk of four entries: a picture, two mp3 files of one album, and an mp3
    file that cannot be read. *)
Definition sampleTags (title : string) (number : Z) : metadata :=
  mkMetadata EmptyString " Nina Simone, Someone" "Pastel Blues " title 1
    number.

Definition sampleWalk : list walkEntry :=
  [otherFile "cover.jpg";
   tagged "a.mp3" (sampleTags " Sinnerman" 9);
   tagged "b.mp3" (sampleTags "Strange Fruit " 5);
   unreadable "c.mp3"].

(** ** The summary *)

(** The line [printProblemNumber] prints after an empty one. *)
Definition printProblemNumber (problems fixable : Z) : string :=
  if problems =? 0 then "No problems found"
  else if problems =? 1 then
    if fixable =? 1 then "1 fixable problem found"
    else "1 non-fixable problem found"
  else if fixable =? 0 then
    decimal problems +:+ " problems found, none of them are fixable"
  else if fixable =? 1 then
    decimal problems +:+ " problems found, 1 of them is fixable"
  else
    decimal problems +:+ " problems found, " +:+ decimal fixable
    +:+ " of them are fixable".

(** * Properties *)

(** ** The order of float64 *)

Module Float64Facts.

Lemma SFcompare_rank f1 f2 :
  SFcompare f1 f2 =
  if isnan f1 || isnan f2 then None
  else Some (match Z.compare (rank f1).1 (rank f2).1 with
             | Eq => match Z.compare (rank f1).2.1 (rank f2).2.1 with
                     | Eq => Z.compare (rank f1).2.2 (rank f2).2.2
                     | c => c
                     end
             | c => c
             end).
Proof.
  destruct f1 as [s1|s1| |s1 m1 e1], f2 as [s2|s2| |s2 m2 e2];
    simpl; try reflexivity;
    try destruct s1; try destruct s2; simpl; try reflexivity.
  rewrite Z.compare_opp, (Z.compare_antisym e1 e2).
  destruct (e1 ?= e2); reflexivity.
Qed.

Ltac by_rank :=
  rewrite SFcompare_rank;
  match goal with
  | |- context [isnan ?f1 || isnan ?f2] =>
      destruct (isnan f1), (isnan f2); simpl;
      try (split; [discriminate | intros (?&?&?); discriminate]);
      destruct (rank f1) as [a [b c]], (rank f2) as [a' [b' c']]; simpl;
      destruct (Z.compare_spec a a'), (Z.compare_spec b b'),
        (Z.compare_spec c c');
      split; try discriminate;
      try (intros _; repeat split; (lia || congruence));
      intros (_&_&?); simplify_eq; lia
  end.

Lemma SFleb_rank f1 f2 :
  SFleb f1 f2 = true ↔
  isnan f1 = false ∧ isnan f2 = false ∧ lexle (rank f1) (rank f2).
Proof. unfold SFleb, lexle. by_rank. Qed.

Lemma SFltb_rank f1 f2 :
  SFltb f1 f2 = true ↔
  isnan f1 = false ∧ isnan f2 = false ∧ lexlt (rank f1) (rank f2).
Proof. unfold SFltb, lexlt. by_rank. Qed.

Lemma SFeqb_rank f1 f2 :
  SFeqb f1 f2 = true ↔
  isnan f1 = false ∧ isnan f2 = false ∧ rank f1 = rank f2.
Proof. unfold SFeqb. by_rank. Qed.

Lemma rank_top f : lexle (rank f) (2, (0, 0)).
Proof. unfold lexle. destruct f as [[]|[]| |[] m e]; simpl; lia. Qed.

Lemma rank_bottom f : lexle (-2, (0, 0)) (rank f).
Proof. unfold lexle. destruct f as [[]|[]| |[] m e]; simpl; lia. Qed.

Lemma lexle_trans a b c : lexle a b → lexle b c → lexle a c.
Proof. unfold lexle. lia. Qed.

Lemma lexle_total a b : ¬ lexlt a b → lexle b a.
Proof. unfold lexlt, lexle. lia. Qed.

#[local] Open Scope float_scope.

Lemma leb_rank x y : (x <=? y) = true ↔ num x ∧ num y ∧ lexle (rk x) (rk y).
Proof. rewrite leb_spec. apply SFleb_rank. Qed.

Lemma ltb_rank x y : (x <? y) = true ↔ num x ∧ num y ∧ lexlt (rk x) (rk y).
Proof. rewrite ltb_spec. apply SFltb_rank. Qed.

Lemma eqb_rank x y : (x =? y) = true ↔ num x ∧ num y ∧ rk x = rk y.
Proof. rewrite FloatAxioms.eqb_spec. apply SFeqb_rank. Qed.

Lemma IsNaN_num x : IsNaN x = false ↔ num x.
Proof.
  unfold IsNaN, ne. rewrite negb_false_iff, eqb_rank. tauto.
Qed.

Lemma leb_num x y : (x <=? y) = true → num x ∧ num y.
Proof. rewrite leb_rank. tauto. Qed.

Lemma ltb_num x y : (x <? y) = true → num x ∧ num y.
Proof. rewrite ltb_rank. tauto. Qed.

Lemma leb_trans x y z :
  (x <=? y) = true → (y <=? z) = true → (x <=? z) = true.
Proof.
  rewrite !leb_rank. intros (?&?&?) (?&?&?).
  eauto using lexle_trans.
Qed.

Lemma not_ltb_leb x y : num x → num y → (x <? y) = false → (y <=? x) = true.
Proof.
  intros Hx Hy H. apply leb_rank. repeat split; try done.
  apply lexle_total. intros Hlt.
  assert ((x <? y) = true) by (apply ltb_rank; done). congruence.
Qed.

Lemma eqb_leb x y z : (x =? y) = true → (z <=? x) = true → (z <=? y) = true.
Proof.
  rewrite eqb_rank, !leb_rank. intros (?&?&Heq) (?&?&?).
  rewrite <- Heq. done.
Qed.

Lemma eqb_leb_l x y z : (x =? y) = true → (x <=? z) = true → (y <=? z) = true.
Proof.
  rewrite eqb_rank, !leb_rank. intros (?&?&Heq) (?&?&?).
  rewrite <- Heq. done.
Qed.

Lemma leb_refl x : num x → (x <=? x) = true.
Proof.
  intros H. apply leb_rank. repeat split; try done.
  unfold lexle. destruct (rk x) as [a [b c]]. simpl. lia.
Qed.

Lemma leb_infinity x : num x → (x <=? infinity) = true.
Proof.
  intros H. apply leb_rank. repeat split; try done. apply rank_top.
Qed.

Lemma neg_infinity_leb x : num x → (neg_infinity <=? x) = true.
Proof.
  intros H. apply leb_rank. repeat split; try done. apply rank_bottom.
Qed.

(** [Max] never goes below a lower bound of its first argument, unless its
    second argument is NaN. *)
Lemma Max_lower lo x y :
  (lo <=? x) = true → IsNaN y = false → (lo <=? Max x y) = true.
Proof.
  intros Hlo Hy. destruct (leb_num _ _ Hlo) as [Hnlo Hnx].
  unfold Max. rewrite (proj2 (IsNaN_num x) Hnx), Hy. simpl.
  destruct (IsInfPos x || IsInfPos y); [by apply leb_infinity|].
  destruct ((x =? 0) && (x =? y)) eqn:E.
  - apply andb_true_iff in E as [_ E].
    destruct (Signbit x); eauto using eqb_leb.
  - destruct (y <? x) eqn:E'; [done|].
    apply IsNaN_num in Hy.
    eauto using leb_trans, not_ltb_leb.
Qed.

(** [Min] never goes above an upper bound of its first argument, unless its
    second argument is NaN. *)
Lemma Min_upper hi x y :
  (x <=? hi) = true → IsNaN y = false → (Min x y <=? hi) = true.
Proof.
  intros Hhi Hy. destruct (leb_num _ _ Hhi) as [Hnx Hnhi].
  unfold Min. rewrite (proj2 (IsNaN_num x) Hnx), Hy. simpl.
  destruct (IsInfNeg x || IsInfNeg y); [by apply neg_infinity_leb|].
  destruct ((x =? 0) && (x =? y)) eqn:E.
  - apply andb_true_iff in E as [_ E].
    destruct (Signbit x); eauto using eqb_leb_l.
  - destruct (x <? y) eqn:E'; [done|].
    apply IsNaN_num in Hy.
    eauto using leb_trans, not_ltb_leb.
Qed.

(** Rounding never produces NaN: the mantissa stays non-negative through the
    shifts, so the NaN branch of [binary_round_aux] is dead. *)
Section Rounding.
Variables prec emax : Z.

Lemma shr_1_nonneg mrs : (0 <= shr_m mrs → 0 <= shr_m (shr_1 mrs))%Z.
Proof. destruct mrs as [[|[p|p|]|[p|p|]] r s]; simpl; lia. Qed.

Lemma iter_shr_1_nonneg p :
  ∀ mrs, (0 <= shr_m mrs → 0 <= shr_m (SpecFloat.iter_pos shr_1 p mrs))%Z.
Proof.
  induction p as [p IH|p IH|]; intros mrs H; simpl.
  - apply IH, IH, shr_1_nonneg, H.
  - apply IH, IH, H.
  - apply shr_1_nonneg, H.
Qed.

Lemma shr_fexp_nonneg m e l :
  (0 <= m → 0 <= shr_m (shr_fexp prec emax m e l).1)%Z.
Proof.
  intros H. unfold shr_fexp, shr.
  assert (0 <= shr_m (shr_record_of_loc m l))%Z
    by (destruct l as [|[]]; exact H).
  destruct (_ - e)%Z; simpl; auto using iter_shr_1_nonneg.
Qed.

Lemma round_nearest_even_nonneg m l :
  (0 <= m → 0 <= round_nearest_even m l)%Z.
Proof. intros H. destruct l as [|[]]; simpl; try destruct (Z.even m); lia. Qed.

Lemma binary_round_aux_num sx mx ex lx :
  (0 <= mx)%Z → isnan (binary_round_aux prec emax sx mx ex lx) = false.
Proof.
  intros H. unfold binary_round_aux.
  pose proof (shr_fexp_nonneg mx ex lx H) as H1.
  destruct (shr_fexp prec emax mx ex lx) as [mrs' e']. simpl in H1.
  pose proof (shr_fexp_nonneg _ e' loc_Exact
                (round_nearest_even_nonneg _ (loc_of_shr_record mrs') H1)) as H2.
  destruct (shr_fexp prec emax _ e' loc_Exact) as [mrs'' e'']. simpl in H2.
  destruct (shr_m mrs''); [reflexivity | | lia].
  destruct (_ <=? _)%Z; reflexivity.
Qed.

Lemma binary_normalize_num m e szero :
  isnan (binary_normalize prec emax m e szero) = false.
Proof.
  destruct m; simpl; [reflexivity | |]; unfold binary_round;
    destruct (shl_align _ _ _); apply binary_round_aux_num; lia.
Qed.

Lemma SFadd_num f g :
  isnan f = false → isnan g = false → isinf g = false →
  isnan (SFadd prec emax f g) = false.
Proof.
  destruct f as [[]|[]| |[] m e], g as [[]|[]| |[] m' e'];
    cbn [SFadd isnan isinf]; try done; intros; apply binary_normalize_num.
Qed.

Lemma SFsub_num f g :
  isnan f = false → isnan g = false → isinf g = false →
  isnan (SFsub prec emax f g) = false.
Proof.
  destruct f as [[]|[]| |[] m e], g as [[]|[]| |[] m' e'];
    cbn [SFsub isnan isinf]; try done; intros; apply binary_normalize_num.
Qed.

Lemma SFsub_num_inv f g :
  isnan (SFsub prec emax f g) = false → isnan f = false ∧ isnan g = false.
Proof.
  destruct f as [[]|[]| |[] m e], g as [[]|[]| |[] m' e'];
    cbn [SFsub isnan]; done.
Qed.

End Rounding.

Lemma add_num x c : num x → fin c → num (x + c).
Proof.
  unfold num, fin. rewrite add_spec. intros ? [??]. by apply SFadd_num.
Qed.

Lemma sub_num x c : num x → fin c → num (x - c).
Proof.
  unfold num, fin. rewrite sub_spec. intros ? [??]. by apply SFsub_num.
Qed.

Lemma sub_num_inv x y : num (x - y) → num x ∧ num y.
Proof. unfold num. rewrite sub_spec. apply SFsub_num_inv. Qed.

Lemma lexlt_not_lexle a b : lexlt a b → ¬ lexle b a.
Proof. unfold lexlt, lexle. lia. Qed.

Lemma ltb_not_leb x y : (x <? y) = true → (y <=? x) = false.
Proof.
  rewrite ltb_rank. intros (_ & _ & Hlt).
  destruct (y <=? x) eqn:E; [|done].
  apply leb_rank in E as (_ & _ & Hle). by apply lexlt_not_lexle in Hlt.
Qed.

Lemma leb_not_ltb x y : (x <=? y) = true → (y <? x) = false.
Proof.
  intros H. destruct (y <? x) eqn:E; [|done].
  apply ltb_not_leb in E. congruence.
Qed.

Lemma IsNaN_eqb_r x y : IsNaN y = true → (x =? y) = false.
Proof.
  intros H. destruct (x =? y) eqn:E; [|done].
  apply eqb_rank in E as (_ & Hy & _). apply IsNaN_num in Hy. congruence.
Qed.

Lemma eqb_refl_num x : IsNaN x = false → (x =? x) = true.
Proof. unfold IsNaN, ne. by rewrite negb_false_iff. Qed.

End Float64Facts.

(** ** Slices *)

Lemma len0_head (s : list silence) :
  (length s =? 0)%nat = if head s is Some _ then false else true.
Proof. by destruct s. Qed.

Lemma idx_first (s : list silence) :
  idx s 0 = default (mkSilence 0 0) (head s).
Proof. by destruct s. Qed.

Lemma idx_last (s : list silence) :
  idx s (length s - 1) = default (mkSilence 0 0) (last s).
Proof.
  unfold idx. induction s as [|a [|b s] IH]; try done.
  simpl in *. by rewrite Nat.sub_0_r in IH.
Qed.

(** No index of the program is out of range. *)
Lemma idx_first_in_range (s : list silence) :
  (length s =? 0)%nat = false → idx s 0 ∈ s.
Proof. destruct s; [done|]. intros _. apply list_elem_of_here. Qed.

Lemma idx_last_in_range (s : list silence) :
  (length s =? 0)%nat = false → idx s (length s - 1) ∈ s.
Proof.
  intros H. rewrite idx_last. destruct (last s) as [x|] eqn:E.
  - simpl. apply list_elem_of_lookup. exists (pred (length s)).
    by rewrite <- last_lookup.
  - apply last_None in E. by subst.
Qed.

(** ** The classifier *)

Section ClassifierFacts.
#[local] Open Scope float_scope.

(** C8. A track whose short-silence list is empty is truncated at both ends,
    and overlaps at neither. *)
Theorem empty_silences_truncated (t : track) :
  silences t = [] →
  truncatedAtTheBeginning t = true ∧ truncatedAtTheEnd t = true ∧
  overlapsAtTheBeginning t = false ∧ overlapsAtTheEnd t = false.
Proof.
  intros H.
  unfold truncatedAtTheBeginning, truncatedAtTheEnd, overlapsAtTheBeginning,
    overlapsAtTheEnd.
  by rewrite H.
Qed.

Lemma empty_silences_truncated_witness :
  silences (mkTrack "Intro" "01 Intro.mp3" 1 1 [] [] 180) = [] ∧
  truncatedAtTheBeginning (mkTrack "Intro" "01 Intro.mp3" 1 1 [] [] 180) = true ∧
  truncatedAtTheEnd (mkTrack "Intro" "01 Intro.mp3" 1 1 [] [] 180) = true.
Proof.
  split; [reflexivity|].
  pose proof (empty_silences_truncated
                (mkTrack "Intro" "01 Intro.mp3" 1 1 [] [] 180) eq_refl)
    as (H1 & H2 & _).
  exact (conj H1 H2).
Defined.

(** The six predicates, read off the first and the last interval. *)
Lemma overlapsAtTheBeginning_head t :
  overlapsAtTheBeginning t =
  if head (silences t) is Some firstSilence
  then (start firstSilence <? maxOverlapping) && (start firstSilence >? tolerance)
  else false.
Proof.
  unfold overlapsAtTheBeginning. rewrite len0_head, idx_first.
  destruct (head (silences t)); simpl; [|done]. by destruct (_ && _).
Qed.

Lemma overlapsAtTheEnd_last t :
  overlapsAtTheEnd t =
  if last (silences t) is Some lastSilence
  then (duration t - end_ lastSilence <? maxOverlapping)
       && (duration t - end_ lastSilence >? tolerance)
  else false.
Proof.
  unfold overlapsAtTheEnd. rewrite len0_head, idx_last.
  destruct (silences t) as [|a s] eqn:E; [done|].
  destruct (last (a :: s)) eqn:E'; [|by apply last_None in E'].
  simpl. by destruct (_ && _).
Qed.

Lemma truncatedAtTheBeginning_head t :
  truncatedAtTheBeginning t =
  if head (silences t) is Some firstSilence
  then start firstSilence >=? maxOverlapping
  else true.
Proof.
  unfold truncatedAtTheBeginning. rewrite len0_head, idx_first.
  destruct (head (silences t)); simpl; [|done]. by destruct (_ <=? _).
Qed.

Lemma truncatedAtTheEnd_last t :
  truncatedAtTheEnd t =
  if last (silences t) is Some lastSilence
  then duration t - end_ lastSilence >=? maxOverlapping
  else true.
Proof.
  unfold truncatedAtTheEnd. rewrite len0_head, idx_last.
  destruct (silences t) as [|a s] eqn:E; [done|].
  destruct (last (a :: s)) eqn:E'; [|by apply last_None in E'].
  simpl. by destruct (_ <=? _).
Qed.

Lemma hugeSilenceAtTheBeginning_head t :
  hugeSilenceAtTheBeginning t =
  if head (longSilences t) is Some firstSilence
  then negb (start firstSilence >=? maxOverlapping)
  else false.
Proof.
  unfold hugeSilenceAtTheBeginning. rewrite len0_head, idx_first.
  destruct (head (longSilences t)); simpl; [|done]. by destruct (_ <=? _).
Qed.

Lemma hugeSilenceAtTheEnd_last t :
  hugeSilenceAtTheEnd t =
  if last (longSilences t) is Some lastSilence
  then negb (duration t - end_ lastSilence >=? maxOverlapping)
  else false.
Proof.
  unfold hugeSilenceAtTheEnd. rewrite len0_head, idx_last.
  destruct (longSilences t) as [|a s] eqn:E; [done|].
  destruct (last (a :: s)) eqn:E'; [|by apply last_None in E'].
  simpl. by destruct (_ <=? _).
Qed.

Lemma trimWindow_boundaries t :
  trimWindow t =
  let firstSilence := default (mkSilence 0 0) (head (silences t)) in
  let lastSilence := default (mkSilence 0 0) (last (silences t)) in
  let firstLongSilence := default (mkSilence 0 0) (head (longSilences t)) in
  let lastLongSilence := default (mkSilence 0 0) (last (longSilences t)) in
  let start1 :=
    if overlapsAtTheBeginning t
    then Max 0 (start firstSilence + silenceTolerance) else 0 in
  let end1 :=
    if overlapsAtTheEnd t
    then Min (duration t) (end_ lastSilence - silenceTolerance)
    else duration t in
  (if hugeSilenceAtTheBeginning t
   then Max start1 (end_ firstLongSilence - maxSilence) else start1,
   if hugeSilenceAtTheEnd t
   then Min end1 (start lastLongSilence + maxSilence) else end1).
Proof. unfold trimWindow. by rewrite !idx_first, !idx_last. Qed.

(** C10. The six predicates and the trim window read the duration, the first
    and the last interval of each list (and whether there is one), and nothing
    else: two tracks that agree on these agree on all seven results. *)
Theorem classifier_reads_boundaries_only (t1 t2 : track) :
  duration t1 = duration t2 →
  head (silences t1) = head (silences t2) →
  last (silences t1) = last (silences t2) →
  head (longSilences t1) = head (longSilences t2) →
  last (longSilences t1) = last (longSilences t2) →
  overlapsAtTheBeginning t1 = overlapsAtTheBeginning t2 ∧
  overlapsAtTheEnd t1 = overlapsAtTheEnd t2 ∧
  truncatedAtTheBeginning t1 = truncatedAtTheBeginning t2 ∧
  truncatedAtTheEnd t1 = truncatedAtTheEnd t2 ∧
  hugeSilenceAtTheBeginning t1 = hugeSilenceAtTheBeginning t2 ∧
  hugeSilenceAtTheEnd t1 = hugeSilenceAtTheEnd t2 ∧
  trimWindow t1 = trimWindow t2.
Proof.
  intros Hd Hh Hl Hlh Hll.
  rewrite !trimWindow_boundaries. cbv zeta.
  rewrite !overlapsAtTheBeginning_head, !overlapsAtTheEnd_last,
    !truncatedAtTheBeginning_head, !truncatedAtTheEnd_last,
    !hugeSilenceAtTheBeginning_head, !hugeSilenceAtTheEnd_last.
  by rewrite Hd, Hh, Hl, Hlh, Hll.
Qed.

Lemma classifier_reads_boundaries_only_witness :
  trimWindow
    (mkTrack "a" "a.mp3" 1 1
       [mkSilence 0.5 1.5; mkSilence 50 52; mkSilence 198 199.5]
       [mkSilence 0 3; mkSilence 60 70; mkSilence 196 200] 200) =
  trimWindow
    (mkTrack "b" "b.mp3" 2 1
       [mkSilence 0.5 1.5; mkSilence 198 199.5]
       [mkSilence 0 3; mkSilence 196 200] 200).
Proof.
  apply (classifier_reads_boundaries_only
           (mkTrack "a" "a.mp3" 1 1
              [mkSilence 0.5 1.5; mkSilence 50 52; mkSilence 198 199.5]
              [mkSilence 0 3; mkSilence 60 70; mkSilence 196 200] 200)
           (mkTrack "b" "b.mp3" 2 1
              [mkSilence 0.5 1.5; mkSilence 198 199.5]
              [mkSilence 0 3; mkSilence 196 200] 200));
    reflexivity.
Defined.

(** C3, as the program has it. The lower bound of an overlap is [tolerance],
    not 0: [overlapsAtTheBeginning] holds exactly when there is a first
    interval and [tolerance < start < maxOverlapping], [overlapsAtTheEnd]
    exactly when there is a last interval and
    [tolerance < duration - end < maxOverlapping]. The track of duration 200
    with the one interval from 0.0 to 0.3 neither overlaps nor is truncated at
    the beginning, and its window starts at 0; with a first interval that
    starts at 0.3 the track overlaps and the window starts at
    [0.3 + 0.4 = 0.7]. *)
Theorem overlaps_iff_beyond_tolerance :
  (∀ t, overlapsAtTheBeginning t = true ↔
        ∃ firstSilence, head (silences t) = Some firstSilence ∧
          (tolerance <? start firstSilence) = true ∧
          (start firstSilence <? maxOverlapping) = true) ∧
  (∀ t, overlapsAtTheEnd t = true ↔
        ∃ lastSilence, last (silences t) = Some lastSilence ∧
          (tolerance <? duration t - end_ lastSilence) = true ∧
          (duration t - end_ lastSilence <? maxOverlapping) = true) ∧
  (overlapsAtTheBeginning (mkTrack "t" "t.mp3" 1 1 [mkSilence 0.0 0.3] [] 200)
   = false ∧
   truncatedAtTheBeginning (mkTrack "t" "t.mp3" 1 1 [mkSilence 0.0 0.3] [] 200)
   = false ∧
   (trimWindow (mkTrack "t" "t.mp3" 1 1 [mkSilence 0.0 0.3] [] 200)).1 = 0) ∧
  (overlapsAtTheBeginning (mkTrack "t" "t.mp3" 1 1 [mkSilence 0.3 0.9] [] 200)
   = true ∧
   truncatedAtTheBeginning (mkTrack "t" "t.mp3" 1 1 [mkSilence 0.3 0.9] [] 200)
   = false ∧
   (trimWindow (mkTrack "t" "t.mp3" 1 1 [mkSilence 0.3 0.9] [] 200)).1 = 0.7 ∧
   0.3 + 0.4 = 0.7).
Proof.
  split; [|split; [|split]].
  - intros t. rewrite overlapsAtTheBeginning_head.
    destruct (head (silences t)) as [f|].
    + rewrite andb_true_iff. split.
      * intros [??]. by exists f.
      * intros (f' & [= <-] & ? & ?). done.
    + split; [done|]. by intros (? & ? & _).
  - intros t. rewrite overlapsAtTheEnd_last.
    destruct (last (silences t)) as [l|].
    + rewrite andb_true_iff. split.
      * intros [??]. by exists l.
      * intros (l' & [= <-] & ? & ?). done.
    + split; [done|]. by intros (? & ? & _).
  - repeat split; reflexivity.
  - repeat split; reflexivity.
Qed.

(** C3 as stated fails: the interval from 0.0 to 0.3 starts at 0.0, which is
    not beyond [tolerance], so the track does not overlap and its window
    starts at 0; and a first interval that starts at 0.005 satisfies
    [0 < start < maxOverlapping] without an overlap. *)
Lemma overlaps_zero_bound_counterexample :
  overlapsAtTheBeginning (mkTrack "t" "t.mp3" 1 1 [mkSilence 0.0 0.3] [] 200)
  = false ∧
  (trimWindow (mkTrack "t" "t.mp3" 1 1 [mkSilence 0.0 0.3] [] 200)).1 = 0 ∧
  ((trimWindow (mkTrack "t" "t.mp3" 1 1 [mkSilence 0.0 0.3] [] 200)).1 =? 0.7)
  = false ∧
  head (silences (mkTrack "u" "u.mp3" 1 1 [mkSilence 0.005 0.3] [] 200))
  = Some (mkSilence 0.005 0.3) ∧
  (0 <? start (mkSilence 0.005 0.3)) = true ∧
  (start (mkSilence 0.005 0.3) <? maxOverlapping) = true ∧
  overlapsAtTheBeginning (mkTrack "u" "u.mp3" 1 1 [mkSilence 0.005 0.3] [] 200)
  = false.
Proof. repeat split; reflexivity. Qed.

(** C1, as the program has it. A duration of 0 changes nothing in the
    classifier: a track of duration 0 is truncated at both ends when its
    short-silence list is empty; when the list is not empty, it is truncated at
    the beginning exactly when the first interval starts at [maxOverlapping]
    or later, and at the end exactly when [0 - end >= maxOverlapping] for the
    last interval. *)
Theorem zero_duration_truncated (t : track) :
  duration t = 0 →
  (silences t = [] →
   truncatedAtTheBeginning t = true ∧ truncatedAtTheEnd t = true) ∧
  (∀ firstSilence, head (silences t) = Some firstSilence →
   truncatedAtTheBeginning t = (start firstSilence >=? maxOverlapping)) ∧
  (∀ lastSilence, last (silences t) = Some lastSilence →
   truncatedAtTheEnd t = (0 - end_ lastSilence >=? maxOverlapping)).
Proof.
  intros Hd. rewrite truncatedAtTheBeginning_head, truncatedAtTheEnd_last, Hd.
  split; [|split].
  - by intros ->.
  - by intros f ->.
  - by intros l ->.
Qed.

Lemma zero_duration_truncated_witness :
  duration (mkTrack "t" "t.mp3" 1 1 [] [] 0) = 0 ∧
  truncatedAtTheBeginning (mkTrack "t" "t.mp3" 1 1 [] [] 0) = true ∧
  truncatedAtTheEnd (mkTrack "t" "t.mp3" 1 1 [] [] 0) = true.
Proof.
  split; [reflexivity|].
  apply (zero_duration_truncated (mkTrack "t" "t.mp3" 1 1 [] [] 0));
    reflexivity.
Defined.

(** C1 as stated fails: a detection run without a duration line leaves the
    duration at 0 and keeps the interval from 0 to 0.5; the track is then
    truncated at neither end. *)
Lemma zero_duration_counterexample :
  getSilenceInfo
    (cannedDetector [silenceStartLine 0; silenceEndLine 0.5] []) "t.mp3" false
  = ([mkSilence 0 0.5], 0) ∧
  duration (analyseTrack
              (cannedDetector [silenceStartLine 0; silenceEndLine 0.5] [])
              (newTrack "t" "t.mp3")) = 0 ∧
  truncatedAtTheBeginning
    (analyseTrack (cannedDetector [silenceStartLine 0; silenceEndLine 0.5] [])
       (newTrack "t" "t.mp3")) = false ∧
  truncatedAtTheEnd
    (analyseTrack (cannedDetector [silenceStartLine 0; silenceEndLine 0.5] [])
       (newTrack "t" "t.mp3")) = false.
Proof. repeat split; reflexivity. Qed.

End ClassifierFacts.

(** ** Counting *)

Section CountingFacts.

Lemma foldr_snd {A B C} (g : B → C → C) (c : C) (l : list (A * B)) :
  foldr (uncurry (λ _ x acc, g x acc)) c l = foldr g c l.*2.
Proof. induction l as [|[??] l IH]; simpl; by f_equal. Qed.

Lemma map_fold_nested {K} `{Countable K} {A B C} (f : K → A → C → C)
    (g : B → C → C) (h : A → list B) (c : C) (m : gmap K A) :
  (∀ k x acc, f k x acc = foldr g acc (h x)) →
  map_fold f c m = foldr g c (mjoin (h <$> (map_to_list m).*2)).
Proof.
  intros Hf. rewrite map_fold_foldr.
  induction (map_to_list m) as [|[k x] l IH]; simpl; [done|].
  by rewrite Hf, foldr_app, IH.
Qed.

(** The four nested loops visit [allTracks]. *)
Lemma countProblems_foldr data :
  countProblems data = foldr countTrack (0, 0) (allTracks data).
Proof.
  apply map_fold_nested; intros _ a acc.
  apply map_fold_nested; intros _ b acc'.
  apply map_fold_nested; intros _ disk acc''.
  unfold diskTracks. by rewrite map_fold_foldr, foldr_snd.
Qed.

Lemma foldr_countTrack (l : list track) :
  foldr countTrack (0, 0) l =
  ((Z.of_nat (length (List.filter isTruncated l))
    + Z.of_nat (length (List.filter isFixable l))) mod 2 ^ 64,
   Z.of_nat (length (List.filter isFixable l)) mod 2 ^ 64).
Proof.
  induction l as [|t l IH]; [done|].
  cbn [foldr List.filter]. rewrite IH. unfold countTrack, uint_incr, isFixable.
  fold (isTruncated t). destruct (isTruncated t); cbn [negb andb length].
  - rewrite Zplus_mod_idemp_l. do 2 f_equal. lia.
  - destruct (_ || _); cbn [length].
    + rewrite !Zplus_mod_idemp_l. f_equal; f_equal; lia.
    + done.
Qed.

Lemma classes_disjoint (l : list track) :
  (length (List.filter isTruncated l) + length (List.filter isFixable l)
   ≤ length l)%nat.
Proof.
  induction l as [|t l IH]; [done|].
  cbn [List.filter]. unfold isFixable at 1.
  destruct (isTruncated t); cbn [negb andb length]; [lia|].
  destruct (_ || _); cbn [length]; lia.
Qed.

(** C7. [countProblems] adds at most 1 to [problems] for a track, truncation
    first: a track with a truncation predicate counts as one problem that is
    not fixable, whatever the other predicates say; a track with none, and
    with one of the four overlap and huge-silence predicates, counts as one
    fixable problem; the others count for nothing. So [problems] is the
    number of truncated tracks plus the number of fixable ones, [fixable] the
    number of fixable ones (both as [uint]), and [fixable <= problems] as long
    as the number of tracks fits a [uint], which it does for every map that
    fits memory. *)
Theorem countProblems_truncation_first (data : artistMap) :
  (∀ t problems fixable,
     countTrack t (problems, fixable) =
     if isTruncated t then (uint_incr problems, fixable)
     else if isFixable t then (uint_incr problems, uint_incr fixable)
     else (problems, fixable)) ∧
  countProblems data =
    ((Z.of_nat (length (List.filter isTruncated (allTracks data)))
      + Z.of_nat (length (List.filter isFixable (allTracks data)))) mod 2 ^ 64,
     Z.of_nat (length (List.filter isFixable (allTracks data))) mod 2 ^ 64) ∧
  Z.of_nat (length (List.filter isTruncated (allTracks data)))
    + Z.of_nat (length (List.filter isFixable (allTracks data)))
    ≤ Z.of_nat (length (allTracks data)) ∧
  (Z.of_nat (length (allTracks data)) < 2 ^ 64 →
   (countProblems data).2 ≤ (countProblems data).1).
Proof.
  pose proof (classes_disjoint (allTracks data)) as Hle.
  split; [|split; [|split]].
  - intros t p f. unfold countTrack, isFixable. fold (isTruncated t).
    destruct (isTruncated t); [done|]. by destruct (_ || _).
  - by rewrite countProblems_foldr, foldr_countTrack.
  - lia.
  - intros Hlt. rewrite countProblems_foldr, foldr_countTrack. simpl.
    rewrite !Z.mod_small by lia. lia.
Qed.

Lemma countProblems_truncation_first_witness :
  Z.of_nat (length (allTracks sampleData)) < 2 ^ 64 ∧
  countProblems sampleData = (2, 1) ∧
  (countProblems sampleData).2 ≤ (countProblems sampleData).1.
Proof.
  assert (Z.of_nat (length (allTracks sampleData)) < 2 ^ 64) as Hlt
    by (vm_compute; reflexivity).
  split; [exact Hlt|]. split; [vm_compute; reflexivity|].
  apply (countProblems_truncation_first sampleData), Hlt.
Defined.

End CountingFacts.

(** ** Silence detection *)

Section DetectionFacts.
#[local] Open Scope float_scope.

Lemma scan_parsedIntervals (lines : list line) : ∀ st,
  result (fold_left scanLine lines st) =
  result st ++
  (List.filter (λ c, keeps c.1 c.2)
     (parsedIntervals (currentSilence st) (d st) lines)).*1.
Proof.
  induction lines as [|l lines IH]; intros st; simpl.
  - by rewrite app_nil_r.
  - rewrite IH. destruct l as [t|t|h m s o|]; simpl; try done.
    destruct (keeps _ _); simpl; [|done]. by rewrite <- app_assoc.
Qed.

Lemma scan_duration_kept (lines : list line) : ∀ st,
  forallb (λ l, negb (isDurationLine l)) lines = true →
  d (fold_left scanLine lines st) = d st ∧
  Forall (λ c, c.2 = d st) (parsedIntervals (currentSilence st) (d st) lines).
Proof.
  induction lines as [|l lines IH]; intros st H; simpl; [done|].
  simpl in H. apply andb_true_iff in H as [Hl H].
  destruct l as [t|t|h m s o|]; simpl in *; try done.
  - apply (IH (mkScan _ _ _) H).
  - set (cur := mkSilence (start (currentSilence st)) t).
    assert (∀ r, d (fold_left scanLine lines (mkScan cur (d st) r)) = d st ∧
                 Forall (λ c, c.2 = d st) (parsedIntervals cur (d st) lines))
      as Hr by (intros r; apply (IH (mkScan cur (d st) r) H)).
    destruct (keeps cur (d st)); split; try apply Hr;
      constructor; try done; apply (Hr []).
  - apply (IH st H).
Qed.

Lemma scan_num (lines : list line) : ∀ st,
  Forall numLine lines →
  numSilence (currentSilence st) → Forall numSilence (result st) →
  Forall numSilence (result (fold_left scanLine lines st)).
Proof.
  induction lines as [|l lines IH]; intros st Hl [Hs He] Hr; simpl; [done|].
  apply Forall_cons in Hl as [Hl Hls].
  destruct l as [t|t|h m s o|]; simpl in *.
  - by apply IH.
  - destruct (keeps _ _); apply IH; try done.
    apply Forall_app. split; [done|]. by repeat constructor.
  - by apply IH.
  - by apply IH.
Qed.

(** X10. The bounds of the intervals are the numbers of the log: when none of
    them is NaN (and [strconv.ParseFloat] gives none for a string of digits
    and dots), no interval of the result has a NaN bound. *)
Lemma getSilenceInfo_num (ffmpeg : detector) (path : string)
    (longSilence : bool) :
  Forall numLine (ffmpeg path (silenceDetectArg longSilence)) →
  Forall numSilence (getSilenceInfo ffmpeg path longSilence).1.
Proof.
  intros H. unfold getSilenceInfo. cbn [fst].
  apply scan_num; [done| |constructor]. by split.
Qed.

(** C4, as the program has it. [getSilenceInfo] keeps a parsed interval
    exactly when its length exceeds [minSilence], or it starts before
    [tolerance], or the duration read so far minus its end is below
    [tolerance]. The test is the same for both profiles, which differ only in
    the argument given to the detector. When the duration line comes first
    and once, as [ffmpeg] prints it, the duration read so far is the duration
    of the track. *)
Theorem getSilenceInfo_keeps (ffmpeg : detector) (path : string)
    (longSilence : bool) :
  (getSilenceInfo ffmpeg path longSilence).1 =
    (List.filter
       (λ c, (end_ c.1 - start c.1 >? minSilence) || (start c.1 <? tolerance)
             || (c.2 - end_ c.1 <? tolerance))
       (parsedIntervals (mkSilence 0 0) 0
          (ffmpeg path (silenceDetectArg longSilence)))).*1 ∧
  (∀ hours minutes seconds offset lines,
     ffmpeg path (silenceDetectArg longSilence)
     = durationLine hours minutes seconds offset :: lines →
     forallb (λ l, negb (isDurationLine l)) lines = true →
     (getSilenceInfo ffmpeg path longSilence).2
     = hours * 3600 + minutes * 60 + seconds - offset ∧
     Forall (λ c, c.2 = (getSilenceInfo ffmpeg path longSilence).2)
       (parsedIntervals (mkSilence 0 0) 0
          (ffmpeg path (silenceDetectArg longSilence)))).
Proof.
  unfold getSilenceInfo. cbn [fst snd]. split.
  - by rewrite scan_parsedIntervals.
  - intros h m s o lines -> Hlines. cbn [fold_left parsedIntervals scanLine].
    destruct (scan_duration_kept lines
                (mkScan (currentSilence scanInit)
                   (h * 3600 + m * 60 + s - o) (result scanInit)) Hlines)
      as [Hd Hall].
    cbn [d currentSilence scanInit] in *. by rewrite Hd.
Qed.

(** C4 as stated fails for both profiles. Short profile: an interval of
    0.59375 s in the middle of a track of 100 s is longer than
    [minSilence - tolerance] and is dropped. Long profile: an interval of
    1.5 s in the middle is shorter than [maxSilence + tolerance] and is
    kept. *)
Lemma retention_counterexample :
  getSilenceInfo
    (cannedDetector
       [durationLine 0 1 40 0; silenceStartLine 5; silenceEndLine 5.59375] [])
    "t.mp3" false = ([], 100) ∧
  specRetained false (mkSilence 5 5.59375) 100 = true ∧
  getSilenceInfo
    (cannedDetector []
       [durationLine 0 1 40 0; silenceStartLine 5; silenceEndLine 6.5])
    "t.mp3" true = ([mkSilence 5 6.5], 100) ∧
  specRetained true (mkSilence 5 6.5) 100 = false.
Proof. repeat split; reflexivity. Qed.

End DetectionFacts.

(** ** Repair *)

Section RepairFacts.
Import Float64Facts.
#[local] Open Scope float_scope.

Lemma fin_silenceTolerance : fin silenceTolerance.
Proof. split; reflexivity. Qed.

Lemma fin_maxSilence : fin maxSilence.
Proof. split; reflexivity. Qed.

Lemma overlapsAtTheBeginning_num t :
  overlapsAtTheBeginning t = true → num (start (idx (silences t) 0)).
Proof.
  unfold overlapsAtTheBeginning. destruct (_ =? _)%nat; [done|].
  destruct (_ <? maxOverlapping) eqn:E; [|done]. intros _.
  by apply ltb_num in E as [??].
Qed.

Lemma overlapsAtTheEnd_num t :
  overlapsAtTheEnd t = true →
  num (end_ (idx (silences t) (length (silences t) - 1))).
Proof.
  unfold overlapsAtTheEnd. destruct (_ =? _)%nat; [done|].
  destruct (_ <? maxOverlapping) eqn:E; [|done]. intros _.
  apply ltb_num in E as [E _]. by apply sub_num_inv in E as [??].
Qed.

Lemma hugeSilenceAtTheBeginning_in t :
  hugeSilenceAtTheBeginning t = true →
  idx (longSilences t) 0 ∈ longSilences t.
Proof.
  unfold hugeSilenceAtTheBeginning.
  destruct (_ =? _)%nat eqn:E; [done|]. intros _. by apply idx_first_in_range.
Qed.

Lemma hugeSilenceAtTheEnd_in t :
  hugeSilenceAtTheEnd t = true →
  idx (longSilences t) (length (longSilences t) - 1) ∈ longSilences t.
Proof.
  unfold hugeSilenceAtTheEnd.
  destruct (_ =? _)%nat eqn:E; [done|]. intros _. by apply idx_last_in_range.
Qed.

(** C5, as the program has it. For a track whose duration and long-silence
    bounds are numbers (not NaN), the window satisfies [0 <= start] and
    [end <= duration]. Nothing orders [start] and [end]. *)
Theorem trimWindow_within_track (t : track) :
  IsNaN (duration t) = false →
  Forall numSilence (longSilences t) →
  (0 <=? (trimWindow t).1) = true ∧
  ((trimWindow t).2 <=? duration t) = true.
Proof.
  intros Hd Hlong. rewrite Forall_forall in Hlong.
  unfold trimWindow. cbn [fst snd]. split.
  - assert ((0 <=? (if overlapsAtTheBeginning t
                    then Max 0 (start (idx (silences t) 0) + silenceTolerance)
                    else 0)) = true) as H1.
    { destruct (overlapsAtTheBeginning t) eqn:E; [|done].
      apply Max_lower; [done|]. apply IsNaN_num, add_num.
      - by apply overlapsAtTheBeginning_num.
      - apply fin_silenceTolerance. }
    destruct (hugeSilenceAtTheBeginning t) eqn:E; [|done].
    apply Max_lower; [done|]. apply IsNaN_num, sub_num.
    + apply IsNaN_num, (Hlong _ (hugeSilenceAtTheBeginning_in t E)).
    + apply fin_maxSilence.
  - assert (((if overlapsAtTheEnd t
              then Min (duration t)
                     (end_ (idx (silences t) (length (silences t) - 1))
                      - silenceTolerance)
              else duration t) <=? duration t) = true) as H1.
    { apply IsNaN_num in Hd.
      destruct (overlapsAtTheEnd t) eqn:E; [|by apply leb_refl].
      apply Min_upper; [by apply leb_refl|]. apply IsNaN_num, sub_num.
      - by apply overlapsAtTheEnd_num.
      - apply fin_silenceTolerance. }
    destruct (hugeSilenceAtTheEnd t) eqn:E; [|done].
    apply Min_upper; [done|]. apply IsNaN_num, add_num.
    + apply IsNaN_num, (Hlong _ (hugeSilenceAtTheEnd_in t E)).
    + apply fin_maxSilence.
Qed.

Lemma trimWindow_within_track_witness :
  IsNaN (duration (mkTrack "t" "t.mp3" 1 1
                     [mkSilence 0.0 5.0; mkSilence 297 299.5]
                     [mkSilence 0.0 5.0] 300)) = false ∧
  Forall numSilence [mkSilence 0.0 5.0] ∧
  trimWindow (mkTrack "t" "t.mp3" 1 1
                [mkSilence 0.0 5.0; mkSilence 297 299.5]
                [mkSilence 0.0 5.0] 300) = (3, 299.1) ∧
  (0 <=? (trimWindow (mkTrack "t" "t.mp3" 1 1
                        [mkSilence 0.0 5.0; mkSilence 297 299.5]
                        [mkSilence 0.0 5.0] 300)).1) = true ∧
  ((trimWindow (mkTrack "t" "t.mp3" 1 1
                  [mkSilence 0.0 5.0; mkSilence 297 299.5]
                  [mkSilence 0.0 5.0] 300)).2 <=? 300) = true.
Proof.
  split; [reflexivity|]. split; [by repeat constructor|].
  split; [reflexivity|].
  apply (trimWindow_within_track
           (mkTrack "t" "t.mp3" 1 1 [mkSilence 0.0 5.0; mkSilence 297 299.5]
              [mkSilence 0.0 5.0] 300)).
  - reflexivity.
  - by repeat constructor.
Defined.

(** C5 as stated fails. An interval of 0.75 s in the middle of a track of 5 s
    is kept by the short profile; the track is truncated at neither end and
    overlaps at both, and its window runs from 3.4 back to 3.35. And with a
    duration that is NaN (seconds and offset both beyond the range of
    float64), the end of the window is NaN and below nothing. *)
Lemma trimWindow_counterexample :
  analyseTrack
    (cannedDetector
       [durationLine 0 0 5 0; silenceStartLine 3; silenceEndLine 3.75] [])
    (newTrack "t" "t.mp3")
  = mkTrack "t" "t.mp3" 1 1 [mkSilence 3 3.75] [] 5 ∧
  isFixable (mkTrack "t" "t.mp3" 1 1 [mkSilence 3 3.75] [] 5) = true ∧
  ((trimWindow (mkTrack "t" "t.mp3" 1 1 [mkSilence 3 3.75] [] 5)).1
   <=? (trimWindow (mkTrack "t" "t.mp3" 1 1 [mkSilence 3 3.75] [] 5)).2)
  = false ∧
  ((trimWindow (mkTrack "t" "t.mp3" 1 1 [mkSilence 3 3.75] [] 5)).2
   <? (trimWindow (mkTrack "t" "t.mp3" 1 1 [mkSilence 3 3.75] [] 5)).1)
  = true ∧
  duration
    (analyseTrack
       (cannedDetector
          [durationLine 0 0 infinity infinity; silenceStartLine 0;
           silenceEndLine 1] [])
       (newTrack "n" "n.mp3")) = nan ∧
  ((trimWindow
      (analyseTrack
         (cannedDetector
            [durationLine 0 0 infinity infinity; silenceStartLine 0;
             silenceEndLine 1] [])
         (newTrack "n" "n.mp3"))).2 <=? nan) = false.
Proof. repeat split; reflexivity. Qed.

Lemma append_neq (a b : string) : b ≠ EmptyString → a +:+ b ≠ a.
Proof.
  intros Hb. induction a as [|c a IH]; simpl; [done|].
  intros [= H]. by apply IH.
Qed.

Lemma tmpPath_neq t : tmpPath t ≠ path t.
Proof. by apply append_neq. Qed.

(** The two ways through the body of the worker. *)
Lemma fixTrack_skip ffmpeg t w :
  ne (trimWindow t).1 0 || ne (trimWindow t).2 (duration t) = false →
  exec (fixTrack ffmpeg t) w = mkWorld (files w) (calls w) (pb w + 1).
Proof.
  unfold exec, fixTrack. destruct (trimWindow t) as [s e]. simpl.
  intros ->. reflexivity.
Qed.

Lemma fixTrack_run ffmpeg t w :
  ne (trimWindow t).1 0 || ne (trimWindow t).2 (duration t) = true →
  exec (fixTrack ffmpeg t) w =
  let ss := (trimWindow t).1 in
  let len := (trimWindow t).2 - (trimWindow t).1 in
  let r := ffmpeg ss len (path t) (tmpPath t) (delete (tmpPath t) (files w)) in
  if r.2 then
    mkWorld
      (match delete (path t) r.1 !! tmpPath t with
       | Some c => <[path t := c]> (delete (tmpPath t) (delete (path t) r.1))
       | None => delete (path t) r.1
       end)
      (calls w ++ [callRemove (tmpPath t);
                   callTrim ss len (path t) (tmpPath t);
                   callRemove (path t);
                   callRename (tmpPath t) (path t)])
      (pb w + 1)
  else
    mkWorld r.1
      (calls w ++ [callRemove (tmpPath t);
                   callTrim ss len (path t) (tmpPath t)])
      (pb w + 1).
Proof.
  unfold exec, fixTrack. destruct (trimWindow t) as [s e]. simpl.
  intros ->. unfold mbind, io_bind, os_Remove, cmd_Run. simpl.
  destruct (ffmpeg _ _ _ _ _) as [fs []]; simpl; by rewrite <- !app_assoc.
Qed.

(** C9. When the window is the whole track ([start == 0] and
    [end == duration], with the equality of float64), the worker calls
    nothing and leaves every file as it is: no command, no temporary file
    made or removed. *)
Theorem full_window_no_trim (ffmpeg : trimmer) (t : track) (w : world) :
  ((trimWindow t).1 =? 0) = true →
  ((trimWindow t).2 =? duration t) = true →
  calls (exec (fixTrack ffmpeg t) w) = calls w ∧
  files (exec (fixTrack ffmpeg t) w) = files w.
Proof.
  intros Hs He. rewrite fixTrack_skip; [done|].
  unfold ne. by rewrite Hs, He.
Qed.

Lemma full_window_no_trim_witness :
  ((trimWindow (mkTrack "z" "z.mp3" 3 1
                  [mkSilence 0 0.5; mkSilence 199.5 200] [] 200)).1 =? 0)
  = true ∧
  ((trimWindow (mkTrack "z" "z.mp3" 3 1
                  [mkSilence 0 0.5; mkSilence 199.5 200] [] 200)).2 =? 200)
  = true ∧
  calls (exec (fixTrack trimDone
                 (mkTrack "z" "z.mp3" 3 1
                    [mkSilence 0 0.5; mkSilence 199.5 200] [] 200))
           (oneFile "z.mp3")) = [] ∧
  files (exec (fixTrack trimDone
                 (mkTrack "z" "z.mp3" 3 1
                    [mkSilence 0 0.5; mkSilence 199.5 200] [] 200))
           (oneFile "z.mp3")) = files (oneFile "z.mp3").
Proof.
  split; [reflexivity|]. split; [reflexivity|].
  apply (full_window_no_trim trimDone
           (mkTrack "z" "z.mp3" 3 1
              [mkSilence 0 0.5; mkSilence 199.5 200] [] 200)
           (oneFile "z.mp3")); reflexivity.
Defined.

(** C6, as the program has it. When the window is not the whole track, the
    worker removes the temporary file, then runs the trim. If the trim fails,
    the worker calls nothing more: no remove, no rename, and the files are as
    the command left them, the temporary file included, which is not removed;
    the file of the track is as it was before the worker, as far as the
    command itself left it alone. If the trim succeeds, the worker removes the
    file of the track and renames the temporary file into its place. *)
Theorem trim_failure_leaves_files (ffmpeg : trimmer) (t : track) (w : world) :
  ne (trimWindow t).1 0 || ne (trimWindow t).2 (duration t) = true →
  let ss := (trimWindow t).1 in
  let len := (trimWindow t).2 - (trimWindow t).1 in
  let before := delete (tmpPath t) (files w) in
  let after := (ffmpeg ss len (path t) (tmpPath t) before).1 in
  let ok := (ffmpeg ss len (path t) (tmpPath t) before).2 in
  let w' := exec (fixTrack ffmpeg t) w in
  before !! path t = files w !! path t ∧
  (ok = false →
   calls w' = calls w ++ [callRemove (tmpPath t);
                          callTrim ss len (path t) (tmpPath t)] ∧
   files w' = after) ∧
  (ok = true →
   calls w' = calls w ++ [callRemove (tmpPath t);
                          callTrim ss len (path t) (tmpPath t);
                          callRemove (path t);
                          callRename (tmpPath t) (path t)] ∧
   files w' !! path t = after !! tmpPath t ∧
   files w' !! tmpPath t = None ∧
   ∀ p, p ≠ path t → p ≠ tmpPath t → files w' !! p = after !! p).
Proof.
  intros Hrun. cbv zeta. rewrite (fixTrack_run _ _ _ Hrun). cbv zeta.
  pose proof (tmpPath_neq t) as Hne.
  destruct (ffmpeg _ _ _ _ _) as [after ok]. cbn [fst snd].
  split; [by rewrite lookup_delete_ne|].
  split; intros ->; [done|].
  split; [done|]. rewrite lookup_delete_ne by done.
  destruct (after !! tmpPath t) as [c|] eqn:E; simpl.
  - split; [by rewrite lookup_insert_eq|]. split.
    + by rewrite lookup_insert_ne, lookup_delete_eq.
    + intros p ??. by rewrite lookup_insert_ne, !lookup_delete_ne.
  - split; [by rewrite lookup_delete_eq|]. split.
    + by rewrite lookup_delete_ne.
    + intros p ??. by rewrite lookup_delete_ne.
Qed.

Lemma trim_failure_leaves_files_witness :
  ne (trimWindow (mkTrack "y" "y.mp3" 2 1
                    [mkSilence 0.3 0.9; mkSilence 199.5 200] [] 200)).1 0
  || ne (trimWindow (mkTrack "y" "y.mp3" 2 1
                       [mkSilence 0.3 0.9; mkSilence 199.5 200] [] 200)).2
       200 = true ∧
  (trimBroken 0.7 (200 - 0.7) "y.mp3" "y.mp3.tmp.mp3"
     (delete "y.mp3.tmp.mp3" (files (oneFile "y.mp3")))).2 = false ∧
  calls (exec (fixTrack trimBroken
                 (mkTrack "y" "y.mp3" 2 1
                    [mkSilence 0.3 0.9; mkSilence 199.5 200] [] 200))
           (oneFile "y.mp3"))
  = [callRemove "y.mp3.tmp.mp3";
     callTrim 0.7 (200 - 0.7) "y.mp3" "y.mp3.tmp.mp3"].
Proof.
  split; [reflexivity|]. split; [reflexivity|].
  apply (trim_failure_leaves_files trimBroken
           (mkTrack "y" "y.mp3" 2 1
              [mkSilence 0.3 0.9; mkSilence 199.5 200] [] 200)
           (oneFile "y.mp3")); reflexivity.
Defined.

(** C6 as stated fails on the temporary file: a trim that fails after it has
    written one byte leaves that byte under the temporary name, and the worker
    makes no call after the command. The file of the track is intact. *)
Lemma trim_failure_counterexample :
  files (exec (fixTrack trimBroken
                 (mkTrack "y" "y.mp3" 2 1
                    [mkSilence 0.3 0.9; mkSilence 199.5 200] [] 200))
           (oneFile "y.mp3")) !! "y.mp3.tmp.mp3" = Some [Byte.x49] ∧
  files (exec (fixTrack trimBroken
                 (mkTrack "y" "y.mp3" 2 1
                    [mkSilence 0.3 0.9; mkSilence 199.5 200] [] 200))
           (oneFile "y.mp3")) !! "y.mp3"
  = Some [Byte.x49; Byte.x44; Byte.x33] ∧
  calls (exec (fixTrack trimBroken
                 (mkTrack "y" "y.mp3" 2 1
                    [mkSilence 0.3 0.9; mkSilence 199.5 200] [] 200))
           (oneFile "y.mp3"))
  = [callRemove "y.mp3.tmp.mp3";
     callTrim 0.7 (200 - 0.7) "y.mp3" "y.mp3.tmp.mp3"].
Proof. repeat split; vm_compute; reflexivity. Qed.

(** C2, at the input where the program departs from it. The track has one
    short silence, from 0.5 to 1.5, and lasts 100 s: it is truncated at the
    end, [countProblems] reports one problem and none fixable, and
    [fixProblems], called with [fixable = 0], trims the first 0.9 s off the
    file and puts the result in its place, advancing the progress bar it
    sized for no track at all. *)
Theorem fixProblems_trims_truncated_track :
  analyseTrack
    (cannedDetector
       [durationLine 0 1 40 0; silenceStartLine 0.5; silenceEndLine 1.5] [])
    (newTrack "t" "t.mp3")
  = mkTrack "t" "t.mp3" 1 1 [mkSilence 0.5 1.5] [] 100 ∧
  truncatedAtTheEnd (mkTrack "t" "t.mp3" 1 1 [mkSilence 0.5 1.5] [] 100)
  = true ∧
  countProblems
    (singleTrack (mkTrack "t" "t.mp3" 1 1 [mkSilence 0.5 1.5] [] 100))
  = (1, 0)%Z ∧
  calls (exec (fixProblems trimDone 0
                 (singleTrack
                    (mkTrack "t" "t.mp3" 1 1 [mkSilence 0.5 1.5] [] 100)))
           (oneFile "t.mp3"))
  = [callRemove "t.mp3.tmp.mp3";
     callTrim 0.9 (100 - 0.9) "t.mp3" "t.mp3.tmp.mp3";
     callRemove "t.mp3";
     callRename "t.mp3.tmp.mp3" "t.mp3"] ∧
  files (exec (fixProblems trimDone 0
                 (singleTrack
                    (mkTrack "t" "t.mp3" 1 1 [mkSilence 0.5 1.5] [] 100)))
           (oneFile "t.mp3")) !! "t.mp3" = Some [Byte.x44; Byte.x33] ∧
  pb (exec (fixProblems trimDone 0
              (singleTrack
                 (mkTrack "t" "t.mp3" 1 1 [mkSilence 0.5 1.5] [] 100)))
        (oneFile "t.mp3")) = 1%Z.
Proof. repeat split; vm_compute; reflexivity. Qed.

End RepairFacts.

(** * Further properties *)

(** ** The worker of [fixProblems] *)

Section WorkerFacts.
Import Float64Facts.
#[local] Open Scope float_scope.

(** X1. A track with none of the four overlap and huge-silence predicates,
    truncated or not, and with a duration that is not NaN, goes through the
    worker without a call and without a change to any file; only the progress
    bar moves. *)
Theorem fixTrack_leaves_unflagged_track (ffmpeg : trimmer) (t : track)
    (w : world) :
  IsNaN (duration t) = false →
  overlapsAtTheBeginning t = false → overlapsAtTheEnd t = false →
  hugeSilenceAtTheBeginning t = false → hugeSilenceAtTheEnd t = false →
  exec (fixTrack ffmpeg t) w = mkWorld (files w) (calls w) (pb w + 1).
Proof.
  intros Hd H1 H2 H3 H4. apply fixTrack_skip.
  unfold trimWindow. rewrite H1, H2, H3, H4. cbn [fst snd].
  unfold ne. by rewrite (eqb_refl_num _ Hd).
Qed.

Lemma fixTrack_leaves_unflagged_track_witness :
  IsNaN 180 = false ∧
  exec (fixTrack trimDone (mkTrack "x" "x.mp3" 1 1 [] [] 180))
    (oneFile "x.mp3")
  = mkWorld (files (oneFile "x.mp3")) [] 1.
Proof.
  split; [reflexivity|].
  apply (fixTrack_leaves_unflagged_track trimDone
           (mkTrack "x" "x.mp3" 1 1 [] [] 180) (oneFile "x.mp3"));
    reflexivity.
Defined.

(** X2. A duration that is NaN never equals itself: whatever the silences,
    the worker removes the temporary file and runs the trim command. *)
Theorem fixTrack_nan_duration_trims (ffmpeg : trimmer) (t : track)
    (w : world) :
  IsNaN (duration t) = true →
  ∃ rest,
    calls (exec (fixTrack ffmpeg t) w) =
    calls w ++ callRemove (tmpPath t)
      :: callTrim (trimWindow t).1 ((trimWindow t).2 - (trimWindow t).1)
           (path t) (tmpPath t)
      :: rest.
Proof.
  intros Hd. rewrite fixTrack_run.
  - cbv zeta. destruct (ffmpeg _ _ _ _ _) as [fs []]; cbn [fst snd calls];
      eauto.
  - unfold ne at 2. rewrite (IsNaN_eqb_r _ _ Hd). apply orb_true_r.
Qed.

Lemma fixTrack_nan_duration_trims_witness :
  IsNaN nan = true ∧
  ∃ rest,
    calls (exec (fixTrack trimBroken
                   (mkTrack "n" "n.mp3" 1 1 [mkSilence 0 1] [] nan))
             (oneFile "n.mp3")) =
    [] ++ callRemove "n.mp3.tmp.mp3"
      :: callTrim 0 (nan - 0) "n.mp3" "n.mp3.tmp.mp3" :: rest.
Proof.
  split; [reflexivity|].
  apply (fixTrack_nan_duration_trims trimBroken
           (mkTrack "n" "n.mp3" 1 1 [mkSilence 0 1] [] nan) (oneFile "n.mp3")).
  reflexivity.
Defined.

Lemma exec_bind (m k : IO unit) (w : world) :
  exec (m;; k) w = exec k (exec m w).
Proof. unfold exec, mbind, io_bind. by destruct (m w). Qed.

Lemma fixTrack_pb ffmpeg t w : pb (exec (fixTrack ffmpeg t) w) = (pb w + 1)%Z.
Proof.
  destruct (ne (trimWindow t).1 0 || ne (trimWindow t).2 (duration t)) eqn:E.
  - rewrite (fixTrack_run _ _ _ E). cbv zeta.
    by destruct (ffmpeg _ _ _ _ _) as [fs []].
  - by rewrite (fixTrack_skip _ _ _ E).
Qed.

(** X3. [fixProblems] advances the progress bar once for every track of the
    collection, whatever [fixable], the maximum it gave the bar. *)
Theorem fixProblems_progress (ffmpeg : trimmer) (fixable : Z)
    (data : artistMap) (w : world) :
  pb (exec (fixProblems ffmpeg fixable data) w)
  = (pb w + Z.of_nat (length (allTracks data)))%Z.
Proof.
  unfold fixProblems. generalize (allTracks data) as l. intros l. revert w.
  induction l as [|t l IH]; intros w.
  - simpl. unfold exec. simpl. lia.
  - cbn [foldr]. rewrite exec_bind, IH, fixTrack_pb. cbn [length]. lia.
Qed.

Lemma fixTrack_frame ffmpeg t w p :
  writesOnlyOutput ffmpeg → p ≠ path t → p ≠ tmpPath t →
  files (exec (fixTrack ffmpeg t) w) !! p = files w !! p.
Proof.
  intros Htool Hp Htmp.
  destruct (ne (trimWindow t).1 0 || ne (trimWindow t).2 (duration t)) eqn:E.
  - rewrite (fixTrack_run _ _ _ E). cbv zeta.
    pose proof (Htool (trimWindow t).1
                  ((trimWindow t).2 - (trimWindow t).1)%float (path t)
                  (tmpPath t) (delete (tmpPath t) (files w)) p Htmp) as Hfs.
    rewrite lookup_delete_ne in Hfs by done.
    destruct (ffmpeg _ _ _ _ _) as [fs []]; cbn [fst snd files] in *.
    + destruct (delete (path t) fs !! tmpPath t).
      * by rewrite lookup_insert_ne, !lookup_delete_ne.
      * by rewrite lookup_delete_ne.
    + done.
  - by rewrite (fixTrack_skip _ _ _ E).
Qed.

(** X4. With a trim command that writes nothing but its output, [fixProblems]
    leaves alone every file that is neither the file of a track of the
    collection nor the temporary file beside one. *)
Theorem fixProblems_frame (ffmpeg : trimmer) (fixable : Z) (data : artistMap)
    (w : world) (p : string) :
  writesOnlyOutput ffmpeg →
  (∀ t, t ∈ allTracks data → p ≠ path t ∧ p ≠ tmpPath t) →
  files (exec (fixProblems ffmpeg fixable data) w) !! p = files w !! p.
Proof.
  intros Htool. unfold fixProblems. generalize (allTracks data) as l.
  intros l. revert w. induction l as [|t l IH]; intros w Hl; [done|].
  cbn [foldr]. rewrite exec_bind, IH.
  - destruct (Hl t) as [??]; [apply list_elem_of_here|].
    by apply fixTrack_frame.
  - intros t' Ht'. apply Hl. by apply list_elem_of_further.
Qed.

Lemma trimDone_writesOnlyOutput : writesOnlyOutput trimDone.
Proof.
  intros ss t input output fs p Hp. unfold trimDone.
  destruct (fs !! input); [|done]. cbn [fst]. by rewrite lookup_insert_ne.
Qed.

Lemma fixProblems_frame_witness :
  files (exec (fixProblems trimDone 1 sampleData) sampleFiles) !! "cover.jpg"
  = Some [Byte.xff; Byte.xd8].
Proof.
  rewrite (fixProblems_frame trimDone 1 sampleData sampleFiles "cover.jpg").
  - reflexivity.
  - apply trimDone_writesOnlyOutput.
  - let l := eval vm_compute in (allTracks sampleData) in
    assert (allTracks sampleData = l) as -> by (vm_compute; reflexivity).
    intros t Ht.
    repeat (apply elem_of_cons in Ht as [->|Ht]; [by split|]).
    by apply elem_of_nil in Ht.
Defined.

End WorkerFacts.

(** ** The three states of a boundary *)

Section BoundaryFacts.
Import Float64Facts.
#[local] Open Scope float_scope.

(** X5. A boundary that overlaps is not truncated: the two predicates of the
    beginning never hold together, nor do the two of the end. *)
Theorem overlap_excludes_truncation (t : track) :
  (overlapsAtTheBeginning t = true → truncatedAtTheBeginning t = false) ∧
  (overlapsAtTheEnd t = true → truncatedAtTheEnd t = false).
Proof.
  rewrite overlapsAtTheBeginning_head, truncatedAtTheBeginning_head,
    overlapsAtTheEnd_last, truncatedAtTheEnd_last.
  split.
  - destruct (head (silences t)) as [f|]; [|done].
    intros [H _]%andb_true_iff. by apply ltb_not_leb.
  - destruct (last (silences t)) as [l|]; [|done].
    intros [H _]%andb_true_iff. by apply ltb_not_leb.
Qed.

(** A number is at or above [maxOverlapping], or strictly between [tolerance]
    and [maxOverlapping], or at or below [tolerance]: one of the three, and
    one only. *)
Lemma three_ranges (x : float) :
  IsNaN x = false →
  ((x >=? maxOverlapping) = true
   ∧ (x <? maxOverlapping) && (x >? tolerance) = false
   ∧ (x <=? tolerance) = false)
  ∨ ((x >=? maxOverlapping) = false
     ∧ (x <? maxOverlapping) && (x >? tolerance) = true
     ∧ (x <=? tolerance) = false)
  ∨ ((x >=? maxOverlapping) = false
     ∧ (x <? maxOverlapping) && (x >? tolerance) = false
     ∧ (x <=? tolerance) = true).
Proof.
  intros Hx%IsNaN_num.
  assert (num maxOverlapping) as Hm by reflexivity.
  assert (num tolerance) as Ht by reflexivity.
  destruct (x <? maxOverlapping) eqn:E1.
  - rewrite (ltb_not_leb _ _ E1). right.
    destruct (tolerance <? x) eqn:E2.
    + left. by rewrite (ltb_not_leb _ _ E2).
    + right. by rewrite (not_ltb_leb _ _ Ht Hx E2).
  - left. pose proof (not_ltb_leb _ _ Hx Hm E1) as H. rewrite H.
    repeat split; try done.
    destruct (x <=? tolerance) eqn:E3; [|done].
    by pose proof (leb_trans _ _ _ H E3).
Qed.

(** X6. For a track with short silences whose first start is a number, the
    beginning is in exactly one of three states: truncated, overlapping, or
    silent from within [tolerance] of time 0. The same holds at the end for
    the distance between the end of the last silence and the duration. *)
Theorem boundary_in_one_state (t : track) (firstSilence lastSilence : silence) :
  head (silences t) = Some firstSilence →
  last (silences t) = Some lastSilence →
  IsNaN (start firstSilence) = false →
  IsNaN (duration t - end_ lastSilence) = false →
  ((truncatedAtTheBeginning t = true ∧ overlapsAtTheBeginning t = false
    ∧ (start firstSilence <=? tolerance) = false)
   ∨ (truncatedAtTheBeginning t = false ∧ overlapsAtTheBeginning t = true
      ∧ (start firstSilence <=? tolerance) = false)
   ∨ (truncatedAtTheBeginning t = false ∧ overlapsAtTheBeginning t = false
      ∧ (start firstSilence <=? tolerance) = true)) ∧
  ((truncatedAtTheEnd t = true ∧ overlapsAtTheEnd t = false
    ∧ (duration t - end_ lastSilence <=? tolerance) = false)
   ∨ (truncatedAtTheEnd t = false ∧ overlapsAtTheEnd t = true
      ∧ (duration t - end_ lastSilence <=? tolerance) = false)
   ∨ (truncatedAtTheEnd t = false ∧ overlapsAtTheEnd t = false
      ∧ (duration t - end_ lastSilence <=? tolerance) = true)).
Proof.
  intros Hf Hl Hnf Hnl.
  rewrite overlapsAtTheBeginning_head, truncatedAtTheBeginning_head,
    overlapsAtTheEnd_last, truncatedAtTheEnd_last, Hf, Hl.
  split; by apply three_ranges.
Qed.

Lemma boundary_in_one_state_witness :
  (head (silences sampleOverlap) = Some (mkSilence 0.3 0.9) ∧
   last (silences sampleOverlap) = Some (mkSilence 199.5 200) ∧
   IsNaN 0.3 = false ∧ IsNaN (200 - 200) = false) ∧
  ((truncatedAtTheBeginning sampleOverlap = true
    ∧ overlapsAtTheBeginning sampleOverlap = false
    ∧ (0.3 <=? tolerance) = false)
   ∨ (truncatedAtTheBeginning sampleOverlap = false
      ∧ overlapsAtTheBeginning sampleOverlap = true
      ∧ (0.3 <=? tolerance) = false)
   ∨ (truncatedAtTheBeginning sampleOverlap = false
      ∧ overlapsAtTheBeginning sampleOverlap = false
      ∧ (0.3 <=? tolerance) = true)) ∧
  ((truncatedAtTheEnd sampleOverlap = true
    ∧ overlapsAtTheEnd sampleOverlap = false
    ∧ (200 - 200 <=? tolerance) = false)
   ∨ (truncatedAtTheEnd sampleOverlap = false
      ∧ overlapsAtTheEnd sampleOverlap = true
      ∧ (200 - 200 <=? tolerance) = false)
   ∨ (truncatedAtTheEnd sampleOverlap = false
      ∧ overlapsAtTheEnd sampleOverlap = false
      ∧ (200 - 200 <=? tolerance) = true)).
Proof.
  split; [repeat split; reflexivity|].
  exact (boundary_in_one_state sampleOverlap (mkSilence 0.3 0.9)
           (mkSilence 199.5 200) eq_refl eq_refl eq_refl eq_refl).
Defined.

End BoundaryFacts.

(** ** More on silence detection *)

Section MoreDetectionFacts.
#[local] Open Scope float_scope.

Lemma scan_no_end (lines : list line) : ∀ st,
  forallb (λ l, negb (isSilenceEndLine l)) lines = true →
  result (fold_left scanLine lines st) = result st.
Proof.
  induction lines as [|l lines IH]; intros st H; simpl; [done|].
  simpl in H. apply andb_true_iff in H as [Hl H].
  destruct l as [t|t|h m s o|]; simpl in *; try done; by rewrite IH.
Qed.

(** X7. A detection run whose log has no [silence_end] line (the tool could
    not run, or found nothing) gives the track no short silence: after
    analysis the track is truncated at both ends, whatever the long run
    found, and [countProblems] counts it as one problem that is not
    fixable. *)
Theorem no_silence_is_a_problem (ffmpeg : detector) (t : track) :
  forallb (λ l, negb (isSilenceEndLine l))
    (ffmpeg (path t) (silenceDetectArg false)) = true →
  silences (analyseTrack ffmpeg t) = [] ∧
  truncatedAtTheBeginning (analyseTrack ffmpeg t) = true ∧
  truncatedAtTheEnd (analyseTrack ffmpeg t) = true ∧
  ∀ problems fixable,
    countTrack (analyseTrack ffmpeg t) (problems, fixable)
    = (uint_incr problems, fixable).
Proof.
  intros H.
  assert (silences (analyseTrack ffmpeg t) = []) as Hs.
  { unfold analyseTrack, getSilenceInfo. cbn [silences].
    by rewrite (scan_no_end _ _ H). }
  assert (truncatedAtTheBeginning (analyseTrack ffmpeg t) = true) as Hb
    by (unfold truncatedAtTheBeginning; by rewrite Hs).
  repeat split; try done.
  - unfold truncatedAtTheEnd. by rewrite Hs.
  - intros p f. unfold countTrack. by rewrite Hb.
Qed.

Lemma no_silence_is_a_problem_witness :
  forallb (λ l, negb (isSilenceEndLine l))
    (cannedDetector [] [] (path (newTrack "t" "t.mp3"))
       (silenceDetectArg false)) = true ∧
  countTrack (analyseTrack (cannedDetector [] []) (newTrack "t" "t.mp3"))
    (0, 0)%Z = (1, 0)%Z.
Proof.
  split; [reflexivity|].
  apply (no_silence_is_a_problem (cannedDetector [] [])
           (newTrack "t" "t.mp3")).
  reflexivity.
Defined.

Lemma parsedIntervals_ends (lines : list line) : ∀ cur d,
  length (parsedIntervals cur d lines)
  = length (List.filter isSilenceEndLine lines) ∧
  ∀ c, c ∈ parsedIntervals cur d lines → silenceEndLine (end_ c.1) ∈ lines.
Proof.
  induction lines as [|l lines IH]; intros cur d; simpl.
  - split; [done|]. intros c Hc. by apply elem_of_nil in Hc.
  - destruct l as [t|t|h m s o|]; simpl.
    + destruct (IH (mkSilence t (end_ cur)) d) as [? Hin].
      split; [done|]. intros c Hc. apply list_elem_of_further. by apply Hin.
    + destruct (IH (mkSilence (start cur) t) d) as [? Hin].
      split; [by f_equal|].
      intros c [->|Hc]%elem_of_cons; [apply list_elem_of_here|].
      apply list_elem_of_further. by apply Hin.
    + destruct (IH cur (h * 3600 + m * 60 + s - o)) as [? Hin].
      split; [done|]. intros c Hc. apply list_elem_of_further. by apply Hin.
    + destruct (IH cur d) as [? Hin].
      split; [done|]. intros c Hc. apply list_elem_of_further. by apply Hin.
Qed.

(** X8. [getSilenceInfo] returns at most one interval for each [silence_end]
    line of the log, and the end of every interval it returns is the number
    of such a line. *)
Theorem getSilenceInfo_one_per_end (ffmpeg : detector) (path : string)
    (longSilence : bool) :
  (length (getSilenceInfo ffmpeg path longSilence).1
   ≤ length (List.filter isSilenceEndLine
               (ffmpeg path (silenceDetectArg longSilence))))%nat ∧
  ∀ s, s ∈ (getSilenceInfo ffmpeg path longSilence).1 →
       silenceEndLine (end_ s) ∈ ffmpeg path (silenceDetectArg longSilence).
Proof.
  unfold getSilenceInfo. cbn [fst]. rewrite scan_parsedIntervals.
  cbn [result scanInit app currentSilence d].
  destruct (parsedIntervals_ends (ffmpeg path (silenceDetectArg longSilence))
              (mkSilence 0 0) 0) as [Hlen Hin].
  split.
  - rewrite length_fmap, <- Hlen. apply List.filter_length_le.
  - intros s (c & -> & Hc)%list_elem_of_fmap.
    apply Hin. apply list_elem_of_In in Hc. apply List.filter_In in Hc as [Hc _].
    by apply list_elem_of_In.
Qed.

(** X9. The duration [getSilenceInfo] returns is 0 for a log without a
    duration line, and otherwise what the last duration line gives:
    [hours*3600 + minutes*60 + seconds - offset]. *)
Theorem getSilenceInfo_last_duration (ffmpeg : detector) (path : string)
    (longSilence : bool) :
  (forallb (λ l, negb (isDurationLine l))
     (ffmpeg path (silenceDetectArg longSilence)) = true →
   (getSilenceInfo ffmpeg path longSilence).2 = 0) ∧
  (∀ before hours minutes seconds offset after,
     ffmpeg path (silenceDetectArg longSilence)
     = before ++ durationLine hours minutes seconds offset :: after →
     forallb (λ l, negb (isDurationLine l)) after = true →
     (getSilenceInfo ffmpeg path longSilence).2
     = hours * 3600 + minutes * 60 + seconds - offset).
Proof.
  unfold getSilenceInfo. cbn [snd]. split.
  - intros H. by destruct (scan_duration_kept _ scanInit H) as [-> _].
  - intros l1 h m s o l2 -> H.
    rewrite fold_left_app. cbn [fold_left scanLine].
    by destruct (scan_duration_kept l2
                   (mkScan (currentSilence (fold_left scanLine l1 scanInit))
                      (h * 3600 + m * 60 + s - o)
                      (result (fold_left scanLine l1 scanInit))) H) as [-> _].
Qed.

Lemma getSilenceInfo_num_witness :
  Forall numLine
    (cannedDetector
       [durationLine 0 1 40 0; silenceStartLine 0; silenceEndLine 1.5] []
       "t.mp3" (silenceDetectArg false)) ∧
  Forall numSilence
    (getSilenceInfo
       (cannedDetector
          [durationLine 0 1 40 0; silenceStartLine 0; silenceEndLine 1.5] [])
       "t.mp3" false).1.
Proof.
  assert (Forall numLine
            (cannedDetector
               [durationLine 0 1 40 0; silenceStartLine 0; silenceEndLine 1.5]
               [] "t.mp3" (silenceDetectArg false))) as H
    by (repeat constructor).
  split; [exact H|].
  exact (getSilenceInfo_num _ "t.mp3" false H).
Defined.

End MoreDetectionFacts.

(** ** Statistics and analysis *)

Section StatsFacts.

Lemma uint_add_incr (c : Z) : uint_incr (c mod 2 ^ 64) = (c + 1) mod 2 ^ 64.
Proof. unfold uint_incr. by rewrite Zplus_mod_idemp_l. Qed.

Lemma stats_tracks (l : list (Z * track)) (a b c : Z) :
  foldr (uncurry (λ (_ : Z) (_ : track) '(artists, albums_, tracks_),
                    (artists, albums_, uint_incr tracks_)))
    (a, b, c mod 2 ^ 64) l
  = (a, b, (c + Z.of_nat (length l)) mod 2 ^ 64).
Proof.
  induction l as [|[k t] l IH]; simpl.
  - by rewrite Z.add_0_r.
  - rewrite IH. simpl. rewrite uint_add_incr. do 2 f_equal. lia.
Qed.

Lemma stats_disks (l : list (Z * gmap Z track)) (a b c : Z) :
  foldr (uncurry (λ (_ : Z) (disk : gmap Z track) acc,
                    map_fold (λ _ _ '(artists, albums_, tracks_),
                                (artists, albums_, uint_incr tracks_))
                      acc disk))
    (a, b, c mod 2 ^ 64) l
  = (a, b, (c + Z.of_nat (length (mjoin (diskTracks <$> l.*2)))) mod 2 ^ 64).
Proof.
  induction l as [|[k disk] l IH]; simpl.
  - by rewrite Z.add_0_r.
  - rewrite IH. rewrite map_fold_foldr, stats_tracks.
    unfold diskTracks at 2. rewrite length_app, length_fmap.
    do 2 f_equal. unfold fmap. lia.
Qed.

Lemma stats_albums (l : list (string * album)) (a b c : Z) :
  foldr (uncurry (λ (_ : string) (album : album) '(artists, albums_, tracks_),
                    map_fold (λ _ disk acc,
                      map_fold (λ _ _ '(artists, albums_, tracks_),
                                  (artists, albums_, uint_incr tracks_))
                        acc disk)
                    (artists, uint_incr albums_, tracks_) (tracks album)))
    (a, b mod 2 ^ 64, c mod 2 ^ 64) l
  = (a, (b + Z.of_nat (length l)) mod 2 ^ 64,
     (c + Z.of_nat (length (mjoin (albumTracks <$> l.*2)))) mod 2 ^ 64).
Proof.
  induction l as [|[k al] l IH]; simpl.
  - by rewrite !Z.add_0_r.
  - rewrite IH. rewrite uint_add_incr, map_fold_foldr, stats_disks.
    unfold albumTracks at 2. rewrite length_app.
    f_equal; [f_equal|]; f_equal; unfold fmap; lia.
Qed.

Lemma stats_artists (l : list (string * artist)) (a b c : Z) :
  foldr (uncurry (λ (_ : string) (artist : artist)
                    '(artists, albums_, tracks_),
                    map_fold (λ _ album '(artists, albums_, tracks_),
                      map_fold (λ _ disk acc,
                        map_fold (λ _ _ '(artists, albums_, tracks_),
                                    (artists, albums_, uint_incr tracks_))
                          acc disk)
                      (artists, uint_incr albums_, tracks_) (tracks album))
                    (uint_incr artists, albums_, tracks_) (albums artist)))
    (a mod 2 ^ 64, b mod 2 ^ 64, c mod 2 ^ 64) l
  = ((a + Z.of_nat (length l)) mod 2 ^ 64,
     (b + Z.of_nat
            (length (mjoin ((λ a : artist, (map_to_list (albums a)).*2)
                              <$> l.*2)))) mod 2 ^ 64,
     (c + Z.of_nat (length (mjoin (artistTracks <$> l.*2)))) mod 2 ^ 64).
Proof.
  induction l as [|[k ar] l IH]; simpl.
  - by rewrite !Z.add_0_r.
  - rewrite IH. rewrite uint_add_incr, map_fold_foldr, stats_albums.
    unfold artistTracks at 2. rewrite !length_app, length_fmap.
    f_equal; [f_equal|]; f_equal; unfold fmap; lia.
Qed.

Lemma getStats_sizes (data : artistMap) :
  getStats data =
  (Z.of_nat (size data) mod 2 ^ 64,
   Z.of_nat (length (allAlbums data)) mod 2 ^ 64,
   Z.of_nat (length (allTracks data)) mod 2 ^ 64).
Proof.
  unfold getStats, allAlbums, allTracks.
  rewrite map_fold_foldr, <- length_map_to_list.
  change (0, 0, 0) with (0 mod 2 ^ 64, 0 mod 2 ^ 64, 0 mod 2 ^ 64).
  by rewrite stats_artists.
Qed.

(** X11. [getStats] returns the number of artists, the number of albums and
    the number of tracks of the collection, each as a [uint]; the tracks it
    counts are the ones [countProblems] and [fixProblems] go through. *)
Theorem getStats_counts (data : artistMap) :
  getStats data =
  (Z.of_nat (size data) mod 2 ^ 64,
   Z.of_nat (length (allAlbums data)) mod 2 ^ 64,
   Z.of_nat (length (allTracks data)) mod 2 ^ 64).
Proof.
  unfold getStats, allAlbums, allTracks.
  rewrite map_fold_foldr, <- length_map_to_list.
  change (0, 0, 0) with (0 mod 2 ^ 64, 0 mod 2 ^ 64, 0 mod 2 ^ 64).
  by rewrite stats_artists.
Qed.

Lemma map_to_list_fmap_snd {K} `{Countable K} {A B} (f : A → B)
    (m : gmap K A) :
  (map_to_list (f <$> m)).*2 = f <$> (map_to_list m).*2.
Proof.
  rewrite map_to_list_fmap, <- !list_fmap_compose.
  apply list_fmap_ext. by intros ? [??].
Qed.

Lemma mjoin_fmap_fmap {A B C D} (f : C → D) (g : A → list C)
    (g' : B → list D) (h : A → B) (l : list A) :
  (∀ x, g' (h x) = f <$> g x) →
  mjoin (g' <$> (h <$> l)) = f <$> mjoin (g <$> l).
Proof.
  intros Hg. induction l as [|x l IH]; [done|].
  change (g' (h x) ++ mjoin (g' <$> (h <$> l))
          = f <$> (g x ++ mjoin (g <$> l))).
  by rewrite fmap_app, Hg, IH.
Qed.

Lemma diskTracks_analyse ffmpeg (disk : gmap Z track) :
  diskTracks (analyseTrack ffmpeg <$> disk)
  = analyseTrack ffmpeg <$> diskTracks disk.
Proof. apply map_to_list_fmap_snd. Qed.

Lemma albumTracks_analyse ffmpeg (a : album) :
  albumTracks (analyseAlbum ffmpeg a) = analyseTrack ffmpeg <$> albumTracks a.
Proof.
  unfold albumTracks, analyseAlbum. cbn [tracks].
  rewrite map_to_list_fmap_snd.
  apply mjoin_fmap_fmap, diskTracks_analyse.
Qed.

Lemma artistTracks_analyse ffmpeg (a : artist) :
  artistTracks (analyseArtist ffmpeg a)
  = analyseTrack ffmpeg <$> artistTracks a.
Proof.
  unfold artistTracks, analyseArtist. cbn [albums].
  rewrite map_to_list_fmap_snd.
  apply mjoin_fmap_fmap, albumTracks_analyse.
Qed.

(** X12. [analyse] changes the profile of the tracks and nothing else: the
    collection keeps its artists, albums, disks and track numbers, every track
    keeps its name and its path, and the tracks after the analysis are the
    tracks before it, each with the result of its own two detection runs. *)
Theorem analyse_keeps_collection (ffmpeg : detector) (data : artistMap) :
  allTracks (analyse ffmpeg data) = analyseTrack ffmpeg <$> allTracks data ∧
  (∀ t, name (analyseTrack ffmpeg t) = name t
        ∧ path (analyseTrack ffmpeg t) = path t
        ∧ trackNumber (analyseTrack ffmpeg t) = trackNumber t
        ∧ diskNumber (analyseTrack ffmpeg t) = diskNumber t) ∧
  (∀ k, artist_name <$> analyse ffmpeg data !! k = artist_name <$> data !! k) ∧
  (∀ k j, (album_name <$> (analyse ffmpeg data !! k ≫= λ a, albums a !! j))
          = (album_name <$> (data !! k ≫= λ a, albums a !! j))) ∧
  (∀ k j i n, (analyse ffmpeg data !! k ≫= λ a, albums a !! j
                 ≫= λ b, tracks b !! i ≫= λ disk, disk !! n)
              = analyseTrack ffmpeg
                  <$> (data !! k ≫= λ a, albums a !! j
                         ≫= λ b, tracks b !! i ≫= λ disk, disk !! n)) ∧
  getStats (analyse ffmpeg data) = getStats data.
Proof.
  assert (allTracks (analyse ffmpeg data)
          = analyseTrack ffmpeg <$> allTracks data) as Hall.
  { unfold allTracks, analyse. rewrite map_to_list_fmap_snd.
    apply mjoin_fmap_fmap, artistTracks_analyse. }
  split; [exact Hall|]. split.
  { intros t. unfold analyseTrack.
    by destruct (getSilenceInfo _ _ false), (getSilenceInfo _ _ true). }
  split.
  { intros k. unfold analyse. rewrite lookup_fmap.
    by destruct (data !! k). }
  split.
  { intros k j. unfold analyse. rewrite lookup_fmap.
    destruct (data !! k) as [a|]; [|done]. simpl.
    rewrite lookup_fmap. by destruct (albums a !! j). }
  split.
  { intros k j i n. unfold analyse. rewrite lookup_fmap.
    destruct (data !! k) as [a|]; [|done]. simpl.
    rewrite lookup_fmap. destruct (albums a !! j) as [b|]; [|done]. simpl.
    rewrite lookup_fmap. destruct (tracks b !! i) as [disk|]; [|done]. simpl.
    by rewrite lookup_fmap. }
  rewrite !getStats_sizes, Hall, length_fmap.
  unfold analyse. rewrite map_size_fmap. do 2 f_equal.
  unfold allAlbums. rewrite map_to_list_fmap_snd.
  rewrite (mjoin_fmap_fmap (analyseAlbum ffmpeg)
             (λ a : artist, (map_to_list (albums a)).*2)).
  - by rewrite length_fmap.
  - intros a. unfold analyseArtist. cbn [albums].
    apply map_to_list_fmap_snd.
Qed.

(** X13. The number of problems [countProblems] reports is at most the number
    of tracks [getStats] reports, as long as the number of tracks fits a
    [uint]. *)
Theorem problems_at_most_tracks (data : artistMap) :
  Z.of_nat (length (allTracks data)) < 2 ^ 64 →
  (countProblems data).1 ≤ (getStats data).2.
Proof.
  intros Hlt. rewrite countProblems_foldr, foldr_countTrack, getStats_sizes.
  pose proof (classes_disjoint (allTracks data)).
  cbn [fst snd]. rewrite !Z.mod_small by lia. lia.
Qed.

Lemma problems_at_most_tracks_witness :
  Z.of_nat (length (allTracks sampleData)) < 2 ^ 64 ∧
  getStats sampleData = (1, 1, 3) ∧
  (countProblems sampleData).1 ≤ (getStats sampleData).2.
Proof.
  assert (Z.of_nat (length (allTracks sampleData)) < 2 ^ 64) as Hlt
    by (vm_compute; reflexivity).
  split; [exact Hlt|]. split; [vm_compute; reflexivity|].
  exact (problems_at_most_tracks sampleData Hlt).
Defined.

End StatsFacts.

(** ** File names *)

Section NameFacts.

Lemma replaceRuns_clean (s : string) : ∀ inRun,
  cleanName (replaceRuns inRun s) = true.
Proof.
  induction s as [|c s IH]; intros inRun; simpl; [done|].
  destruct (isWrongChar c) eqn:E.
  - destruct inRun; [apply IH|]. unfold cleanName in *. simpl. apply IH.
  - unfold cleanName in *. simpl. by rewrite E, IH.
Qed.

Lemma replaceRuns_id (s : string) : ∀ inRun,
  cleanName s = true → replaceRuns inRun s = s.
Proof.
  induction s as [|c s IH]; intros inRun; simpl; [done|].
  unfold cleanName in *. simpl.
  intros [Hc Hs]%andb_true_iff. apply negb_true_iff in Hc.
  by rewrite Hc, IH.
Qed.

Lemma replaceRuns_length (s : string) : ∀ inRun,
  (String.length (replaceRuns inRun s) ≤ String.length s)%nat.
Proof.
  induction s as [|c s IH]; intros inRun; simpl; [done|].
  pose proof (IH true). pose proof (IH false).
  destruct (isWrongChar c); [destruct inRun|]; simpl; lia.
Qed.

Lemma escape_clean_aux (path : string) :
  cleanName (escape path) = true ∧
  (String.length (escape path) ≤ String.length path)%nat.
Proof. split; [apply replaceRuns_clean | apply replaceRuns_length]. Qed.

(** X14. The result of [escape] holds none of the wrong characters, so no
    path separator, and is never longer than the name. *)
Theorem escape_clean (path : string) :
  cleanName (escape path) = true ∧
  (String.length (escape path) ≤ String.length path)%nat.
Proof. split; [apply replaceRuns_clean | apply replaceRuns_length]. Qed.

(** X15. [escape] leaves a name as it is exactly when the name holds no wrong
    character; escaping twice is escaping once. *)
Theorem escape_fixed_point (path : string) :
  (escape path = path ↔ cleanName path = true) ∧
  escape (escape path) = escape path.
Proof.
  split; [split|].
  - intros <-. apply replaceRuns_clean.
  - apply replaceRuns_id.
  - apply replaceRuns_id, replaceRuns_clean.
Qed.

Lemma append_assoc_s (a b c : string) : a +:+ (b +:+ c) = (a +:+ b) +:+ c.
Proof.
  induction a as [|x a IH]; [done|].
  change (String x (a +:+ (b +:+ c)) = String x ((a +:+ b) +:+ c)).
  by rewrite IH.
Qed.

Lemma allChars_app p (a b : string) :
  allChars p (a +:+ b) = allChars p a && allChars p b.
Proof.
  induction a as [|c a IH]; simpl; [done|]. by rewrite IH, andb_assoc.
Qed.

Lemma allChars_impl (p q : Ascii.ascii → bool) (s : string) :
  (∀ c, p c = true → q c = true) → allChars p s = true → allChars q s = true.
Proof.
  intros Hpq. induction s as [|c s IH]; simpl; [done|].
  intros [??]%andb_true_iff. rewrite Hpq, IH; done.
Qed.

Lemma numChar_clean (c : Ascii.ascii) :
  isNumChar c = true → negb (isWrongChar c) = true.
Proof. destruct c as [[] [] [] [] [] [] [] []]; by vm_compute. Qed.

Lemma numChar_notSpace (c : Ascii.ascii) :
  isNumChar c = true → notSpace c = true.
Proof. destruct c as [[] [] [] [] [] [] [] []]; by vm_compute. Qed.

Lemma string_of_uint_numChars (d : Decimal.uint) :
  allChars isNumChar (NilEmpty.string_of_uint d) = true.
Proof. induction d; simpl; done. Qed.

Lemma decimal_numChars (n : Z) : allChars isNumChar (decimal n) = true.
Proof.
  unfold decimal, NilZero.string_of_int, NilZero.string_of_uint.
  destruct (Z.to_int n) as [d|d]; destruct d; simpl;
    try done; apply string_of_uint_numChars.
Qed.

Lemma fmt02d_numChars (n : Z) : allChars isNumChar (fmt02d n) = true.
Proof.
  unfold fmt02d. destruct (_ && _); [|apply decimal_numChars].
  rewrite allChars_app, decimal_numChars. done.
Qed.

(** [%d] can be read back. *)
Lemma decimal_read (n : Z) :
  NilZero.int_of_string (decimal n) = Some (Z.to_int n).
Proof.
  unfold decimal. apply NilZero.isi.
  - destruct n; simpl; intros [= H]; by apply Unsigned.to_uint_nonnil in H.
  - destruct n; simpl; intros [= H]; by apply Unsigned.to_uint_nonnil in H.
Qed.

Lemma decimal_inj (a b : Z) : decimal a = decimal b → a = b.
Proof.
  intros H. apply to_int_inj.
  pose proof (decimal_read a) as Ha. rewrite H, decimal_read in Ha.
  by injection Ha.
Qed.

Lemma fmt02d_read (n : Z) :
  Z.of_int <$> NilZero.int_of_string (fmt02d n) = Some n.
Proof.
  unfold fmt02d. destruct (_ && _) eqn:E.
  - apply andb_true_iff in E as [?%Z.leb_le ?%Z.ltb_lt].
    assert (n = 0 ∨ n = 1 ∨ n = 2 ∨ n = 3 ∨ n = 4 ∨ n = 5 ∨ n = 6 ∨ n = 7
            ∨ n = 8 ∨ n = 9) as Hn by lia.
    repeat (destruct Hn as [->|Hn]; [reflexivity|]). by subst.
  - rewrite decimal_read. simpl. by rewrite of_to.
Qed.

Lemma fmt02d_inj (a b : Z) : fmt02d a = fmt02d b → a = b.
Proof.
  intros H. pose proof (fmt02d_read a) as Ha.
  rewrite H, fmt02d_read in Ha. by injection Ha.
Qed.

(** Two strings without a space, each followed by a space, can be told
    apart from what follows. *)
Lemma split_at_space (a b r1 r2 : string) :
  allChars notSpace a = true → allChars notSpace b = true →
  a +:+ String " " r1 = b +:+ String " " r2 → a = b ∧ r1 = r2.
Proof.
  revert b. induction a as [|c a IH]; intros [|c' b]; simpl.
  - intros _ _ [= ->]. done.
  - intros _ [Hc _]%andb_true_iff [= <- _]. done.
  - intros [Hc _]%andb_true_iff _ [= -> _]. done.
  - intros [_ Ha]%andb_true_iff [_ Hb]%andb_true_iff [= -> H].
    destruct (IH b Ha Hb H) as [-> ->]. done.
Qed.

Lemma fmt02d_notSpace (n : Z) : allChars notSpace (fmt02d n) = true.
Proof.
  apply (allChars_impl isNumChar); [apply numChar_notSpace|].
  apply fmt02d_numChars.
Qed.

(** X16. The name [sortData] gives a file holds none of the wrong characters,
    whatever the title of the track and the two numbers: it names a file of
    the directory of the album, and ends in [.mp3]. *)
Theorem sortFileName_clean (a : album) (diskNumber trackNumber : Z)
    (t : track) :
  cleanName (sortFileName a diskNumber trackNumber t) = true ∧
  ∃ stem, sortFileName a diskNumber trackNumber t = stem +:+ ".mp3".
Proof.
  assert (∀ n, cleanName (fmt02d n) = true) as Hn.
  { intros n. apply (allChars_impl isNumChar); [apply numChar_clean|].
    apply fmt02d_numChars. }
  unfold sortFileName. split.
  - unfold cleanName in *.
    destruct (1 <? _); simpl; rewrite !allChars_app, ?Hn;
      fold (cleanName (escape (name t)));
      by rewrite (proj1 (escape_clean_aux (name t))).
  - destruct (1 <? _).
    + exists (fmt02d diskNumber +:+ " - " +:+ fmt02d trackNumber +:+ " "
              +:+ escape (name t)).
      simpl. by rewrite <- !append_assoc_s.
    + exists (fmt02d trackNumber +:+ " " +:+ escape (name t)).
      simpl. by rewrite <- !append_assoc_s.
Qed.

Lemma one_key {A} (m : gmap Z A) (i j : Z) :
  (size m ≤ 1)%nat → is_Some (m !! i) → is_Some (m !! j) → i = j.
Proof.
  intros Hsize Hi Hj. destruct (decide (i = j)) as [|Hne]; [done|].
  pose proof (map_size_delete_Some i m Hi) as Hd.
  assert (size (delete i m) ≠ 0)%nat as Hnz.
  { apply (map_size_ne_0_lookup_2 _ j). by rewrite lookup_delete_ne. }
  lia.
Qed.

Lemma sortFileName_same (a : album) (disk1 disk2 number1 number2 : Z)
    (t1 t2 : track) :
  is_Some (tracks a !! disk1) → is_Some (tracks a !! disk2) →
  sortFileName a disk1 number1 t1 = sortFileName a disk2 number2 t2 →
  disk1 = disk2 ∧ number1 = number2.
Proof.
  intros H1 H2. unfold sortFileName.
  destruct (1 <? Z.of_nat (size (tracks a))) eqn:E; simpl.
  - rewrite <- !append_assoc_s. simpl.
    intros [Hd Hrest]%split_at_space; try apply fmt02d_notSpace.
    injection Hrest as Hrest.
    apply split_at_space in Hrest as [Hn _]; try apply fmt02d_notSpace.
    split; by apply fmt02d_inj.
  - apply Z.ltb_ge in E.
    intros [Hn _]%split_at_space; try apply fmt02d_notSpace.
    split; [|by apply fmt02d_inj].
    apply (one_key (tracks a)); [lia|done..].
Qed.

(** X17. In one album, [sortData] gives different file names to two tracks
    that differ in their disk number or in their track number, whatever their
    titles: no track of an album is renamed onto another. *)
Theorem sortFileName_distinct (a : album) (disk1 disk2 number1 number2 : Z)
    (t1 t2 : track) :
  is_Some (tracks a !! disk1) → is_Some (tracks a !! disk2) →
  (disk1, number1) ≠ (disk2, number2) →
  sortFileName a disk1 number1 t1 ≠ sortFileName a disk2 number2 t2.
Proof.
  intros H1 H2 Hne Heq. apply Hne.
  by destruct (sortFileName_same _ _ _ _ _ _ _ H1 H2 Heq) as [-> ->].
Qed.

Lemma sortFileName_distinct_witness :
  sortFileName (mkAlbum "album" {[ 1 := ∅; 2 := ∅ ]}) 1 3
    (newTrack "a/b" "x.mp3") = "01 - 03 a-b.mp3" ∧
  sortFileName (mkAlbum "album" {[ 1 := ∅; 2 := ∅ ]}) 2 3
    (newTrack "a/b" "y.mp3") = "02 - 03 a-b.mp3" ∧
  sortFileName (mkAlbum "album" {[ 1 := ∅; 2 := ∅ ]}) 1 3
    (newTrack "a/b" "x.mp3")
  ≠ sortFileName (mkAlbum "album" {[ 1 := ∅; 2 := ∅ ]}) 2 3
      (newTrack "a/b" "y.mp3").
Proof.
  split; [vm_compute; reflexivity|]. split; [vm_compute; reflexivity|].
  apply (sortFileName_distinct (mkAlbum "album" {[ 1 := ∅; 2 := ∅ ]}) 1 2 3 3
           (newTrack "a/b" "x.mp3") (newTrack "a/b" "y.mp3"));
    [by eexists..|done].
Defined.

End NameFacts.

(** ** Sorting *)

Section SortFacts.

Lemma moved_tracks (J : Z → track → string) (l : list (Z * track))
    (log : list sortCall) :
  omap movedFile
    (foldr (uncurry (λ n t log, callMove (path t) (J n t) :: log)) log l)
  = (path <$> l.*2) ++ omap movedFile log.
Proof.
  induction l as [|[n t] l IH]; simpl; [done|]. f_equal. exact IH.
Qed.

Lemma moved_disks (J : Z → Z → track → string) (l : list (Z * gmap Z track))
    (log : list sortCall) :
  omap movedFile
    (foldr (uncurry (λ d (disk : gmap Z track) log,
                       map_fold (λ n t log, callMove (path t) (J d n t) :: log)
                         log disk)) log l)
  = (path <$> mjoin (diskTracks <$> l.*2)) ++ omap movedFile log.
Proof.
  induction l as [|[d disk] l IH]; [done|].
  cbn [foldr uncurry]. rewrite map_fold_foldr, moved_tracks, IH.
  change (mjoin (diskTracks <$> ((d, disk) :: l).*2))
    with (diskTracks disk ++ mjoin (diskTracks <$> l.*2)).
  by rewrite fmap_app, <- app_assoc.
Qed.

Lemma moved_albums (M : album → string) (J : album → Z → Z → track → string)
    (l : list (string * album)) (log : list sortCall) :
  omap movedFile
    (foldr (uncurry (λ (_ : string) (a : album) log,
                       callMkdir (M a)
                       :: map_fold (λ d (disk : gmap Z track) log,
                            map_fold (λ n t log,
                                        callMove (path t) (J a d n t) :: log)
                              log disk)
                          log (tracks a))) log l)
  = (path <$> mjoin (albumTracks <$> l.*2)) ++ omap movedFile log.
Proof.
  induction l as [|[k a] l IH]; [done|].
  cbn [foldr uncurry omap list_omap movedFile].
  rewrite map_fold_foldr, (moved_disks (J a)), IH.
  change (mjoin (albumTracks <$> ((k, a) :: l).*2))
    with (albumTracks a ++ mjoin (albumTracks <$> l.*2)).
  by rewrite fmap_app, <- app_assoc.
Qed.

Lemma moved_artists (Join : list string → string) (folder : string)
    (l : list (string * artist)) (log : list sortCall) :
  omap movedFile
    (foldr (uncurry (λ (_ : string) (artist : artist) log,
       callMkdir (Join [folder; escape (artist_name artist)])
       :: map_fold (λ _ album log,
            callMkdir (Join [folder; escape (artist_name artist);
                             escape (album_name album)])
            :: map_fold (λ diskNumber disk log,
                 map_fold (λ trackNumber track log,
                   callMove (path track)
                     (Join [folder; escape (artist_name artist);
                            escape (album_name album);
                            sortFileName album diskNumber trackNumber track])
                   :: log)
                 log disk)
               log (tracks album))
          log (albums artist))) log l)
  = (path <$> mjoin (artistTracks <$> l.*2)) ++ omap movedFile log.
Proof.
  induction l as [|[k ar] l IH]; [done|].
  cbn [foldr uncurry omap list_omap movedFile].
  rewrite map_fold_foldr,
    (moved_albums
       (λ a, Join [folder; escape (artist_name ar); escape (album_name a)])
       (λ a d n t, Join [folder; escape (artist_name ar);
                         escape (album_name a); sortFileName a d n t])),
    IH.
  change (mjoin (artistTracks <$> ((k, ar) :: l).*2))
    with (artistTracks ar ++ mjoin (artistTracks <$> l.*2)).
  by rewrite fmap_app, <- app_assoc.
Qed.

(** X18. [sortData] moves the file of every track of the collection, once,
    and moves nothing else. *)
Theorem sortData_moves_every_track (Join : list string → string)
    (folder : string) (data : artistMap) :
  omap movedFile (sortData Join folder data) = path <$> allTracks data.
Proof.
  unfold sortData, allTracks.
  rewrite map_fold_foldr, moved_artists. apply app_nil_r.
Qed.

End SortFacts.

(** ** Reporting *)

Section ReportFacts.

Lemma length_append_s (a b : string) :
  String.length (a +:+ b) = (String.length a + String.length b)%nat.
Proof.
  induction a as [|x a IH]; [done|].
  change (S (String.length (a +:+ b))
          = S (String.length a + String.length b)). by rewrite IH.
Qed.

Lemma problemFlags_flagsOf (c : palette) (t : track) :
  problemFlags c t =
  flagsOf c (truncatedAtTheBeginning t) (overlapsAtTheBeginning t)
    (hugeSilenceAtTheBeginning t) (hugeSilenceAtTheEnd t)
    (overlapsAtTheEnd t) (truncatedAtTheEnd t).
Proof.
  unfold problemFlags, flagsOf. cbv zeta.
  change (EmptyString +:+ ?x) with x.
  by rewrite <- !append_assoc_s.
Qed.

Lemma isProblem_any (t : track) :
  isProblem t =
  truncatedAtTheBeginning t || overlapsAtTheBeginning t
  || hugeSilenceAtTheBeginning t || hugeSilenceAtTheEnd t
  || overlapsAtTheEnd t || truncatedAtTheEnd t.
Proof.
  unfold isProblem, isFixable, isTruncated.
  by destruct (truncatedAtTheBeginning t), (overlapsAtTheBeginning t),
    (hugeSilenceAtTheBeginning t), (hugeSilenceAtTheEnd t),
    (overlapsAtTheEnd t), (truncatedAtTheEnd t).
Qed.

(** Seven pieces, none empty, that make the seven characters of a clean
    track: each of the six flags is a dash. *)
Lemma seven_dashes (p1 p2 p3 p4 p5 p6 : string) :
  p1 ≠ EmptyString → p2 ≠ EmptyString → p3 ≠ EmptyString →
  p4 ≠ EmptyString → p5 ≠ EmptyString → p6 ≠ EmptyString →
  p1 +:+ p2 +:+ p3 +:+ " " +:+ p4 +:+ p5 +:+ p6 = "--- ---" →
  p1 = "-" ∧ p2 = "-" ∧ p3 = "-" ∧ p4 = "-" ∧ p5 = "-" ∧ p6 = "-".
Proof.
  intros H1 H2 H3 H4 H5 H6 H.
  pose proof (f_equal String.length H) as Hlen.
  rewrite !length_append_s in Hlen.
  destruct p1 as [|c1 r1]; [done|]. destruct p2 as [|c2 r2]; [done|].
  destruct p3 as [|c3 r3]; [done|]. destruct p4 as [|c4 r4]; [done|].
  destruct p5 as [|c5 r5]; [done|]. destruct p6 as [|c6 r6]; [done|].
  simpl in Hlen.
  destruct r1; [|simpl in Hlen; lia]. destruct r2; [|simpl in Hlen; lia].
  destruct r3; [|simpl in Hlen; lia]. destruct r4; [|simpl in Hlen; lia].
  destruct r5; [|simpl in Hlen; lia]. destruct r6; [|simpl in Hlen; lia].
  by injection H as -> -> -> -> -> ->.
Qed.

Lemma flagsOf_logged (c : palette) (tb ob hb he oe te : bool) :
  visible c →
  negb (String.eqb (flagsOf c tb ob hb he oe te) "--- ---")
  = tb || ob || hb || he || oe || te.
Proof.
  intros Hc.
  destruct (Hc (RedString c "T")) as [Hr Hr']; [set_solver|].
  destruct (Hc (YellowString c "O")) as [Hy Hy']; [set_solver|].
  destruct (Hc (HiMagentaString c "S")) as [Hm Hm']; [set_solver|].
  destruct (tb || ob || hb || he || oe || te) eqn:E.
  - apply negb_true_iff, String.eqb_neq. intros H.
    apply seven_dashes in H as (?&?&?&?&?&?);
      by destruct tb, ob, hb, he, oe, te.
  - by destruct tb, ob, hb, he, oe, te.
Qed.

(** X19. With a palette whose coloured letters can be seen, [logProblems]
    prints a line for a track exactly when one of the six predicates holds,
    that is when [countProblems] counts the track as a problem. *)
Theorem logged_iff_counted (c : palette) (t : track) :
  visible c → isLogged c t = isProblem t.
Proof.
  intros Hc. unfold isLogged.
  by rewrite problemFlags_flagsOf, flagsOf_logged, isProblem_any.
Qed.

Lemma plainPalette_visible : visible plainPalette.
Proof.
  intros s Hs. repeat (apply elem_of_cons in Hs as [->|Hs]; [done|]).
  by apply elem_of_nil in Hs.
Qed.

Lemma logged_iff_counted_witness :
  isLogged plainPalette sampleOverlap = true ∧
  problemFlags plainPalette sampleOverlap = "-O- ---" ∧
  isProblem sampleOverlap = true.
Proof.
  split; [|split; reflexivity].
  rewrite (logged_iff_counted plainPalette sampleOverlap plainPalette_visible).
  reflexivity.
Defined.

Lemma foldr_as_foldl {A B} (g : A → B → B) (b : B) (l : list A) :
  foldr g b l = foldl (λ st x, g x st) b (rev l).
Proof.
  induction l as [|x l IH]; [done|].
  simpl. by rewrite foldl_app, <- IH.
Qed.

Lemma trackLines_cons (c : palette) (t : track) (ts : list track) :
  trackLines c (t :: ts) =
  if isLogged c t
  then trackLine (problemFlags c t) (name t) :: trackLines c ts
  else trackLines c ts.
Proof. unfold trackLines. cbn [List.filter]. by destruct (isLogged c t). Qed.

(** The tracks of an album, in the order of the loops: the headers come with
    the first line, and once. *)
Lemma log_tracks (c : palette) (an bn : string) (ts : list track) :
  ∀ out (aL bL : bool),
  foldl (λ st t, logTrack c an bn t st) (out, aL, bL) ts =
  match trackLines c ts with
  | [] => (out, aL, bL)
  | ls => (out ++ (if aL then [] else [artistLine an])
               ++ (if bL then [] else [albumLine bn]) ++ ls, true, true)
  end.
Proof.
  induction ts as [|t ts IH]; intros out aL bL; [done|].
  cbn [foldl]. rewrite trackLines_cons. unfold logTrack at 2.
  destruct (isLogged c t) eqn:E; [|apply IH].
  destruct aL, bL; cbn [negb]; rewrite IH; destruct (trackLines c ts);
    cbn [app]; by rewrite <- ?app_assoc.
Qed.

Lemma log_album (c : palette) (an : string) (a : album) (out : list logLine)
    (aL : bool) :
  (map_fold (λ _ (disk : gmap Z track) st,
      map_fold (λ _ track st, logTrack c an (album_name a) track st) st disk)
     (out, aL, false) (tracks a)).1 =
  match albumReport c a with
  | [] => (out, aL)
  | ls => (out ++ (if aL then [] else [artistLine an]) ++ ls, true)
  end.
Proof.
  rewrite (map_fold_nested _ (logTrack c an (album_name a)) diskTracks).
  - fold (albumTracks a). rewrite foldr_as_foldl, log_tracks.
    unfold albumReport. by destruct (trackLines c (rev (albumTracks a))).
  - intros k disk st. unfold diskTracks.
    by rewrite map_fold_foldr, foldr_snd.
Qed.

Lemma log_albums (c : palette) (an : string) (l : list album) :
  ∀ out (aL : bool),
  foldl (λ (st : list logLine * bool) (a : album),
           let '(out, artistNameLogged) := st in
           (map_fold (λ _ (disk : gmap Z track) st,
              map_fold (λ _ track st, logTrack c an (album_name a) track st)
                st disk)
            (out, artistNameLogged, false) (tracks a)).1) (out, aL) l =
  match mjoin (albumReport c <$> l) with
  | [] => (out, aL)
  | ls => (out ++ (if aL then [] else [artistLine an]) ++ ls, true)
  end.
Proof.
  induction l as [|a l IH]; intros out aL; [done|].
  cbn [foldl]. rewrite log_album.
  change (mjoin (albumReport c <$> a :: l))
    with (albumReport c a ++ mjoin (albumReport c <$> l)).
  destruct (albumReport c a) as [|x r]; [apply IH|].
  rewrite IH. destruct (mjoin (albumReport c <$> l)).
  - by rewrite app_nil_r.
  - destruct aL; cbn [app]; by rewrite <- ?app_assoc.
Qed.

Lemma log_artist (c : palette) (a : artist) (out : list logLine) :
  (map_fold (λ _ album '(out, artistNameLogged),
      (map_fold (λ _ (disk : gmap Z track) st,
         map_fold (λ _ track st,
           logTrack c (artist_name a) (album_name album) track st) st disk)
       (out, artistNameLogged, false) (tracks album)).1)
     (out, false) (albums a)).1 = out ++ artistReport c a.
Proof.
  rewrite map_fold_foldr, foldr_snd, foldr_as_foldl.
  rewrite (log_albums c (artist_name a)).
  unfold artistReport.
  destruct (mjoin _); [by rewrite app_nil_r|done].
Qed.

Lemma logProblems_report_aux (c : palette) (data : artistMap) :
  logProblems c data = logReport c data.
Proof.
  unfold logProblems, logReport.
  rewrite map_fold_foldr, foldr_snd, foldr_as_foldl.
  rewrite <- (app_nil_l (mjoin _)).
  generalize ([] : list logLine) as out.
  induction (rev (map_to_list data).*2) as [|a l IH]; intros out.
  - by rewrite app_nil_r.
  - cbn [foldl]. rewrite log_artist, IH.
    change (mjoin (artistReport c <$> a :: l))
      with (artistReport c a ++ mjoin (artistReport c <$> l)).
    by rewrite app_assoc.
Qed.

(** X20. [logProblems] prints, artist by artist and album by album, the line
    of every logged track; before the first line of an album, the name of the
    album, once; before the first name of an album of an artist, the name of
    the artist, once; and nothing for an album or an artist without a logged
    track. *)
Theorem logProblems_report (c : palette) (data : artistMap) :
  logProblems c data = logReport c data.
Proof.
  unfold logProblems, logReport.
  rewrite map_fold_foldr, foldr_snd, foldr_as_foldl.
  rewrite <- (app_nil_l (mjoin _)).
  generalize ([] : list logLine) as out.
  induction (rev (map_to_list data).*2) as [|a l IH]; intros out.
  - by rewrite app_nil_r.
  - cbn [foldl]. rewrite log_artist, IH.
    change (mjoin (artistReport c <$> a :: l))
      with (artistReport c a ++ mjoin (artistReport c <$> l)).
    by rewrite app_assoc.
Qed.

Lemma countIf_app {A} (f : A → bool) (l k : list A) :
  countIf f (l ++ k) = (countIf f l + countIf f k)%nat.
Proof. unfold countIf. by rewrite List.filter_app, length_app. Qed.

Lemma countIf_rev {A} (f : A → bool) (l : list A) :
  countIf f (rev l) = countIf f l.
Proof.
  induction l as [|x l IH]; [done|].
  simpl. rewrite countIf_app, IH. unfold countIf. simpl.
  destruct (f x); simpl; lia.
Qed.

(** Counting through two levels of lists, whatever the order of the outer
    one. *)
Lemma countIf_mjoin_rev {A B C} (f : C → bool) (g : B → bool)
    (h : A → list C) (h' : A → list B) (l : list A) :
  (∀ x, countIf f (h x) = countIf g (h' x)) →
  countIf f (mjoin (h <$> rev l)) = countIf g (mjoin (h' <$> l)).
Proof.
  intros Hh. induction l as [|x l IH]; [done|].
  change (mjoin (h' <$> x :: l)) with (h' x ++ mjoin (h' <$> l)).
  cbn [rev]. rewrite fmap_app, join_app.
  change (mjoin (h <$> [x])) with (h x ++ []).
  rewrite app_nil_r, !countIf_app, IH, Hh. lia.
Qed.

Lemma trackLines_count (c : palette) (ts : list track) :
  countIf isTrackLine (trackLines c ts) = countIf (isLogged c) ts.
Proof.
  induction ts as [|t ts IH]; [done|].
  rewrite trackLines_cons. unfold countIf in *. simpl.
  destruct (isLogged c t); simpl; by rewrite IH.
Qed.

Lemma albumReport_count (c : palette) (a : album) :
  countIf isTrackLine (albumReport c a) = countIf (isLogged c) (albumTracks a).
Proof.
  rewrite <- (countIf_rev (isLogged c)), <- trackLines_count.
  unfold albumReport, countIf.
  by destruct (trackLines c (rev (albumTracks a))).
Qed.

Lemma artistReport_count (c : palette) (a : artist) :
  countIf isTrackLine (artistReport c a)
  = countIf (isLogged c) (artistTracks a).
Proof.
  unfold artistTracks.
  rewrite <- (countIf_mjoin_rev isTrackLine (isLogged c) (albumReport c)
                albumTracks) by apply albumReport_count.
  unfold artistReport, countIf. by destruct (mjoin _).
Qed.

Lemma isProblem_count (l : list track) :
  countIf isProblem l = (countIf isTruncated l + countIf isFixable l)%nat.
Proof.
  induction l as [|t l IH]; [done|].
  unfold countIf in *. cbn [List.filter].
  pose proof (eq_refl : isProblem t = isTruncated t || isFixable t) as Hp.
  assert (isTruncated t = true → isFixable t = false) as Hx
    by (unfold isFixable; by intros ->).
  destruct (isProblem t), (isTruncated t), (isFixable t);
    cbn [length] in *; try done; lia.
Qed.

(** X21. With a palette whose coloured letters can be seen, the number of
    track lines [logProblems] prints is the number of problems
    [countProblems] reports, as long as the number of tracks fits a
    [uint]. *)
Theorem report_agrees_with_count (c : palette) (data : artistMap) :
  visible c →
  Z.of_nat (length (allTracks data)) < 2 ^ 64 →
  Z.of_nat (countIf isTrackLine (logProblems c data)) = (countProblems data).1.
Proof.
  intros Hc Hlt.
  rewrite logProblems_report_aux. unfold logReport.
  rewrite (countIf_mjoin_rev isTrackLine (isLogged c) (artistReport c)
             artistTracks) by apply artistReport_count.
  fold (allTracks data).
  assert (countIf (isLogged c) (allTracks data)
          = countIf isProblem (allTracks data)) as ->.
  { unfold countIf. f_equal. apply List.filter_ext.
    intros t. unfold isLogged.
    by rewrite problemFlags_flagsOf, flagsOf_logged, isProblem_any. }
  rewrite isProblem_count, countProblems_foldr, foldr_countTrack.
  pose proof (classes_disjoint (allTracks data)).
  unfold countIf in *. cbn [fst]. rewrite Z.mod_small by lia. lia.
Qed.

Lemma report_agrees_with_count_witness :
  Z.of_nat (length (allTracks sampleData)) < 2 ^ 64 ∧
  Z.of_nat (countIf isTrackLine (logProblems plainPalette sampleData)) = 2.
Proof.
  assert (Z.of_nat (length (allTracks sampleData)) < 2 ^ 64) as Hlt
    by (vm_compute; reflexivity).
  split; [exact Hlt|].
  rewrite (report_agrees_with_count plainPalette sampleData
             plainPalette_visible Hlt).
  vm_compute; reflexivity.
Defined.

End ReportFacts.

(** ** Reading the folder *)

Section FolderFacts.

(** [addFile] in one step: the three levels above the track are kept when
    they are there and empty when they are not. *)
Lemma addFile_eq (data : artistMap) (path : string) (m : metadata) :
  addFile data path m =
  let ar := default (mkArtist (artistNameOf m) ∅) (data !! artistNameOf m) in
  let al := default (mkAlbum (Trim (Album m)) ∅)
              (albums ar !! Trim (Album m)) in
  let disk := default ∅ (tracks al !! Disc m) in
  <[artistNameOf m :=
      mkArtist (artist_name ar)
        (<[Trim (Album m) :=
             mkAlbum (album_name al)
               (<[Disc m := <[Track m := trackOf path m]> disk]> (tracks al))]>
           (albums ar))]> data.
Proof.
  unfold addFile. cbv zeta.
  destruct (data !! artistNameOf m) as [ar|] eqn:Ear.
  - rewrite ?Ear. simpl.
    destruct (albums ar !! Trim (Album m)) as [al|] eqn:Eal.
    + rewrite ?Eal. simpl.
      destruct (tracks al !! Disc m) as [disk|] eqn:Ed.
      * rewrite ?Ed. done.
      * simpl. rewrite lookup_insert_eq. simpl.
        by rewrite insert_insert_eq.
    + simpl. rewrite lookup_insert_eq. simpl.
      rewrite lookup_empty. simpl. rewrite lookup_insert_eq. simpl.
      by rewrite !insert_insert_eq.
  - rewrite lookup_insert_eq. simpl.
    rewrite lookup_empty. simpl. rewrite lookup_insert_eq. simpl.
    rewrite lookup_empty. simpl. rewrite lookup_insert_eq. simpl.
    by rewrite !insert_insert_eq.
Qed.

Lemma trackAt_addFile_same (data : artistMap) (path : string) (m : metadata) :
  trackAt (addFile data path m) (artistNameOf m) (Trim (Album m)) (Disc m)
    (Track m) = Some (trackOf path m).
Proof.
  rewrite addFile_eq. unfold trackAt. cbv zeta.
  rewrite lookup_insert_eq. cbn [mbind option_bind albums].
  rewrite lookup_insert_eq. cbn [mbind option_bind tracks].
  rewrite lookup_insert_eq. cbn [mbind option_bind].
  by rewrite lookup_insert_eq.
Qed.

Lemma trackAt_addFile_other (data : artistMap) (path : string) (m : metadata)
    (k j : string) (i n : Z) :
  (k, j, i, n) ≠ (artistNameOf m, Trim (Album m), Disc m, Track m) →
  trackAt (addFile data path m) k j i n = trackAt data k j i n.
Proof.
  intros Hne. rewrite addFile_eq. unfold trackAt. cbv zeta.
  destruct (decide (k = artistNameOf m)) as [->|Hk];
    [|by rewrite lookup_insert_ne].
  rewrite lookup_insert_eq. cbn [mbind option_bind albums].
  destruct (decide (j = Trim (Album m))) as [->|Hj].
  - rewrite lookup_insert_eq. cbn [mbind option_bind tracks].
    destruct (decide (i = Disc m)) as [->|Hi].
    + rewrite lookup_insert_eq. cbn [mbind option_bind].
      rewrite lookup_insert_ne by congruence.
      destruct (data !! artistNameOf m) as [ar|]; [|done]. cbn.
      destruct (albums ar !! Trim (Album m)) as [al|]; [|done]. cbn.
      by destruct (tracks al !! Disc m).
    + rewrite lookup_insert_ne by done.
      destruct (data !! artistNameOf m) as [ar|]; [|done]. cbn.
      by destruct (albums ar !! Trim (Album m)).
  - rewrite lookup_insert_ne by done.
    by destruct (data !! artistNameOf m).
Qed.

Lemma walk_app_readable (before rest : list walkEntry) :
  ∀ data,
  forallb (λ e, negb (isUnreadable e)) before = true →
  walk (before ++ rest) data = walk rest (walk before data).
Proof.
  induction before as [|e before IH]; intros data H; [done|].
  simpl in H. apply andb_true_iff in H as [He H].
  destruct e; simpl in *; try done; by apply IH.
Qed.

Lemma walk_keeps (after : list walkEntry) (m : metadata) :
  ∀ data,
  Forall (otherTags m) after →
  trackAt (walk after data) (artistNameOf m) (Trim (Album m)) (Disc m)
    (Track m)
  = trackAt data (artistNameOf m) (Trim (Album m)) (Disc m) (Track m).
Proof.
  induction after as [|e after IH]; intros data H; [done|].
  apply Forall_cons in H as [He H].
  destruct e as [p|p|p m']; simpl in *; try done; try by apply IH.
  rewrite IH by done. apply trackAt_addFile_other. congruence.
Qed.

(** X22. An mp3 file that is met before any unreadable one, and after which
    no file has the same artist, album, disk number and track number, is in
    the collection under these four, with its path, its trimmed title, no
    silence and a duration of 0. *)
Theorem getFolderData_files_track (before after : list walkEntry)
    (path : string) (m : metadata) :
  forallb (λ e, negb (isUnreadable e)) before = true →
  Forall (otherTags m) after →
  trackAt (getFolderData (before ++ tagged path m :: after))
    (artistNameOf m) (Trim (Album m)) (Disc m) (Track m)
  = Some (mkTrack (Trim (Title m)) path (Track m) (Disc m) [] [] 0).
Proof.
  intros Hb Ha. unfold getFolderData.
  rewrite walk_app_readable by done. cbn [walk].
  rewrite walk_keeps by done. apply trackAt_addFile_same.
Qed.

(** X23. The walk ends at the first mp3 file that cannot be read: the
    collection is the one of the files met before it, and the files after it
    are left out without a word. *)
Theorem getFolderData_stops_at_unreadable (before after : list walkEntry)
    (path : string) :
  getFolderData (before ++ unreadable path :: after) = getFolderData before.
Proof.
  unfold getFolderData. generalize (∅ : artistMap) as data.
  induction before as [|e before IH]; intros data; [done|].
  destruct e; simpl; try done; apply IH.
Qed.

Lemma walk_provenance (entries : list walkEntry) :
  ∀ data k j i n t,
  trackAt (walk entries data) k j i n = Some t →
  trackAt data k j i n = Some t ∨
  ∃ path m, tagged path m ∈ entries ∧ t = trackOf path m ∧
            k = artistNameOf m ∧ j = Trim (Album m) ∧
            i = Disc m ∧ n = Track m.
Proof.
  induction entries as [|e entries IH]; intros data k j i n t H; [by left|].
  destruct e as [p|p|p m]; simpl in H.
  - destruct (IH _ _ _ _ _ _ H) as [?|(p' & m' & Hin & ?)]; [by left|].
    right. exists p', m'. split; [by apply list_elem_of_further|done].
  - by left.
  - destruct (IH _ _ _ _ _ _ H) as [Hadd|(p' & m' & Hin & ?)].
    + destruct (decide ((k, j, i, n)
                        = (artistNameOf m, Trim (Album m), Disc m, Track m)))
        as [[= -> -> -> ->]|Hne].
      * rewrite trackAt_addFile_same in Hadd. injection Hadd as <-.
        right. exists p, m. split; [apply list_elem_of_here|done].
      * rewrite trackAt_addFile_other in Hadd by done. by left.
    + right. exists p', m'. split; [by apply list_elem_of_further|done].
Qed.

(** X24. Every track of the collection [getFolderData] builds is the track of
    an mp3 file of the walk, filed under the artist, the album, the disk
    number and the track number of its tags, with no silence yet and a
    duration of 0. *)
Theorem getFolderData_provenance (entries : list walkEntry)
    (k j : string) (i n : Z) (t : track) :
  trackAt (getFolderData entries) k j i n = Some t →
  ∃ path m, tagged path m ∈ entries ∧
            t = mkTrack (Trim (Title m)) path (Track m) (Disc m) [] [] 0 ∧
            k = artistNameOf m ∧ j = Trim (Album m) ∧
            i = Disc m ∧ n = Track m.
Proof.
  intros H. by destruct (walk_provenance _ _ _ _ _ _ _ H) as [?|?].
Qed.

Lemma getFolderData_files_track_witness :
  trackAt (getFolderData sampleWalk) "Nina Simone" "Pastel Blues" 1 9
  = Some (mkTrack "Sinnerman" "a.mp3" 9 1 [] [] 0).
Proof.
  apply (getFolderData_files_track [otherFile "cover.jpg"]
           [tagged "b.mp3" (sampleTags "Strange Fruit " 5);
            unreadable "c.mp3"]
           "a.mp3" (sampleTags " Sinnerman" 9)).
  - reflexivity.
  - repeat constructor. vm_compute. intros [= ].
Defined.

Lemma getFolderData_provenance_witness :
  trackAt (getFolderData sampleWalk) "Nina Simone" "Pastel Blues" 1 5
  = Some (mkTrack "Strange Fruit" "b.mp3" 5 1 [] [] 0) ∧
  ∃ path m, tagged path m ∈ sampleWalk ∧
            mkTrack "Strange Fruit" "b.mp3" 5 1 [] [] 0
            = mkTrack (Trim (Title m)) path (Track m) (Disc m) [] [] 0 ∧
            "Nina Simone" = artistNameOf m ∧ "Pastel Blues" = Trim (Album m) ∧
            1 = Disc m ∧ 5 = Track m.
Proof.
  assert (trackAt (getFolderData sampleWalk) "Nina Simone" "Pastel Blues" 1 5
          = Some (mkTrack "Strange Fruit" "b.mp3" 5 1 [] [] 0)) as H
    by (vm_compute; reflexivity).
  split; [exact H|].
  exact (getFolderData_provenance sampleWalk _ _ _ _ _ H).
Defined.

(** [Trim] leaves no space at either end. *)
Lemma trimLeft_head (s : string) (r : string) : trimLeft s ≠ String " " r.
Proof.
  induction s as [|c s IH]; simpl; [done|].
  destruct (Ascii.eqb_spec c " ") as [->|Hc]; [done|]. by intros [= ].
Qed.

Lemma trimRight_head (s : string) (c : Ascii.ascii) (r : string) :
  trimRight s = String c r → ∃ r', s = String c r'.
Proof.
  destruct s as [|c' s]; simpl; [done|].
  destruct (trimRight s); [destruct (Ascii.eqb c' " "); [done|]|];
    intros [= -> _]; eauto.
Qed.

Lemma trimRight_last (s : string) : ∀ r, trimRight s ≠ r +:+ " ".
Proof.
  induction s as [|c s IH]; intros r; simpl; [by destruct r|].
  destruct (trimRight s) as [|c' r'] eqn:E.
  - destruct (Ascii.eqb_spec c " ") as [->|Hc]; [by destruct r|].
    destruct r as [|x [|y r]]; intros H; inversion H; congruence.
  - destruct r as [|x r]; intros H; inversion H as [[Hx Hr]].
    by apply (IH r).
Qed.

Lemma Trim_outer (s r : string) :
  Trim s ≠ String " " r ∧ Trim s ≠ r +:+ " ".
Proof.
  split; [|apply trimRight_last].
  intros H. unfold Trim in H.
  destruct (trimRight_head _ _ _ H) as [r' Hr'].
  by apply trimLeft_head in Hr'.
Qed.

Lemma allChars_trimLeft p (s : string) :
  allChars p s = true → allChars p (trimLeft s) = true.
Proof.
  induction s as [|c s IH]; simpl; [done|].
  intros [Hc Hs]%andb_true_iff. destruct (Ascii.eqb c " "); [by apply IH|].
  simpl. by rewrite Hc, Hs.
Qed.

Lemma allChars_trimRight p (s : string) :
  allChars p s = true → allChars p (trimRight s) = true.
Proof.
  induction s as [|c s IH]; simpl; [done|].
  intros [Hc Hs]%andb_true_iff. specialize (IH Hs).
  destruct (trimRight s); [destruct (Ascii.eqb c " ")|]; simpl in *;
    rewrite ?Hc; done.
Qed.

Lemma firstField_no_comma (s : string) :
  allChars (λ c, negb (Ascii.eqb c ",")) (firstField s) = true.
Proof.
  induction s as [|c s IH]; simpl; [done|].
  destruct (Ascii.eqb c ",") eqn:E; simpl; [done|]. by rewrite E.
Qed.

(** X25. The names [getFolderData] files an mp3 file under, and the name it
    gives the track, neither begin nor end with a space, whatever the tags;
    and the name of an artist taken from the [Artist] tag, for want of an
    [AlbumArtist], holds no comma. *)
Theorem names_are_trimmed (path : string) (m : metadata) (r : string) :
  (artistNameOf m ≠ String " " r ∧ artistNameOf m ≠ r +:+ " ") ∧
  (Trim (Album m) ≠ String " " r ∧ Trim (Album m) ≠ r +:+ " ") ∧
  (name (trackOf path m) ≠ String " " r ∧ name (trackOf path m) ≠ r +:+ " ") ∧
  (Trim (AlbumArtist m) = EmptyString →
   allChars (λ c, negb (Ascii.eqb c ",")) (artistNameOf m) = true).
Proof.
  split; [|split; [|split]]; try apply Trim_outer.
  - unfold artistNameOf. destruct (String.eqb _ _); apply Trim_outer.
  - intros H. unfold artistNameOf. rewrite H. cbn [String.eqb].
    apply allChars_trimRight, allChars_trimLeft, firstField_no_comma.
Qed.

End FolderFacts.

(** ** The summary *)

Section SummaryFacts.

Lemma decimal_head (n : Z) :
  ∃ c r, decimal n = String c r ∧ isNumChar c = true.
Proof.
  pose proof (decimal_numChars n) as Hn. pose proof (decimal_read n) as Hr.
  destruct (decimal n) as [|c r]; [done|].
  simpl in Hn. apply andb_true_iff in Hn as [Hc _]. eauto.
Qed.

Lemma countIf_zero {A} (f : A → bool) (l : list A) :
  countIf f l = 0%nat ↔ ∀ x, x ∈ l → f x = false.
Proof.
  unfold countIf. induction l as [|x l IH]; simpl.
  - split; [|done]. intros _ y Hy. by apply elem_of_nil in Hy.
  - destruct (f x) eqn:E; simpl.
    + split; [done|]. intros H. specialize (H x (list_elem_of_here _ _)).
      congruence.
    + rewrite IH. split.
      * intros H y [->|Hy]%elem_of_cons; auto.
      * intros H y Hy. apply H. by apply list_elem_of_further.
Qed.

(** X26. After [countProblems], and as long as the number of tracks fits a
    [uint], [printProblemNumber] prints [No problems found] exactly when no
    track of the collection has any of the six predicates. *)
Theorem no_problems_message (data : artistMap) :
  Z.of_nat (length (allTracks data)) < 2 ^ 64 →
  printProblemNumber (countProblems data).1 (countProblems data).2
  = "No problems found"
  ↔ ∀ t, t ∈ allTracks data → isProblem t = false.
Proof.
  intros Hlt. rewrite <- countIf_zero, isProblem_count.
  rewrite countProblems_foldr, foldr_countTrack. cbn [fst snd].
  pose proof (classes_disjoint (allTracks data)) as Hle.
  unfold countIf in *. rewrite !Z.mod_small by lia.
  unfold printProblemNumber.
  destruct (Z.eqb_spec
              (Z.of_nat (length (List.filter isTruncated (allTracks data)))
               + Z.of_nat (length (List.filter isFixable (allTracks data))))
              0) as [H0|H0].
  { split; [lia|done]. }
  split; [|lia]. intros H. exfalso.
  destruct (decimal_head
              (Z.of_nat (length (List.filter isTruncated (allTracks data)))
               + Z.of_nat (length (List.filter isFixable (allTracks data)))))
    as (c & r & Hdec & Hc).
  rewrite Hdec in H.
  repeat (destruct (_ =? _) in H; try discriminate H);
    injection H as -> _; discriminate Hc.
Qed.

Lemma no_problems_message_witness :
  Z.of_nat (length (allTracks sampleData)) < 2 ^ 64 ∧
  printProblemNumber (countProblems sampleData).1 (countProblems sampleData).2
  = "2 problems found, 1 of them is fixable" ∧
  (printProblemNumber (countProblems sampleData).1
     (countProblems sampleData).2 = "No problems found"
   ↔ ∀ t, t ∈ allTracks sampleData → isProblem t = false).
Proof.
  assert (Z.of_nat (length (allTracks sampleData)) < 2 ^ 64) as Hlt
    by (vm_compute; reflexivity).
  split; [exact Hlt|]. split; [vm_compute; reflexivity|].
  exact (no_problems_message sampleData Hlt).
Defined.

End SummaryFacts.
